(** * tickvault-python-api: the query client's parameter handling

    A shallow embedding of [tickvaultpythonapi/client.py] (class
    [BaseClient]): the string/list conversion helpers [_str_to_list] and
    [_list_to_str], and the part of [run_query] that turns a list of
    predicates into query parameters and merges them into the caller's
    parameter dict.

    The module [tickvaultpythonapi.parsing.predicate] (class [Predicate],
    the predicate grammar and [Predicate.get_as_tuple]) is imported by
    [client.py] but is not among the sources; the definitions that stand
    for it are modelled from the specification and are marked as such.

    Python dicts are finite maps (stdpp's [gmap] over [string] keys): two
    dicts are equal in Python when they hold the same items, whatever the
    order they list them in.  [sys.exit] and raised exceptions are
    outcomes of an explicit result type, and object identity is modelled
    by a store of objects where a property depends on it. *)

From Stdlib Require Import ZArith String Ascii List DecimalString.
From stdpp Require Import gmap strings list fin_maps.

Set Warnings "-clear-no-such-hyp".

(** ** Python values *)

(** The scalars the client passes around: field names, tickers and
    encoded values are strings; times and limits are integers. *)
Inductive scalar : Type :=
| SNone
| SInt (n : Z)
| SStr (s : string).

(** A Python object as the client sees it.  Lists hold scalars (the only
    lists the client splits, joins or forwards); a dict maps string keys
    to objects. *)
#[warnings="-register-all"]
Inductive pyval : Type :=
| PScalar (a : scalar)
| PList (xs : list scalar)
| PDict (d : gmap string pyval).

Abbreviation PNone := (PScalar SNone).
Abbreviation PInt n := (PScalar (SInt n)).
Abbreviation PStr s := (PScalar (SStr s)).

(** [str(x)] on a scalar. *)
Definition py_str (a : scalar) : string :=
  match a with
  | SNone => "None"
  | SInt n => NilZero.string_of_int (Z.to_int n)
  | SStr s => s
  end.

(** Truth value of an object, as tested by [if x:] and [not x]. *)
Definition truthy (v : pyval) : bool :=
  match v with
  | PScalar SNone => false
  | PScalar (SInt n) => negb (Z.eqb n 0)
  | PScalar (SStr s) => negb (String.eqb s "")
  | PList xs => negb (bool_decide (xs = []))
  | PDict d => negb (bool_decide (d = ∅))
  end.

(** ** Outcomes *)

(** The exceptions that occur: Python's [TypeError], and the error kinds
    of the predicate parser (spec section 7). *)
Inductive exn : Type :=
| TypeError
| PredicateSyntaxError
| UnsupportedOperatorError
| InvalidTermError.

(** How a call ends: it returns a value, raises an exception, or leaves
    the process through [sys.exit] with a message. *)
Inductive outcome (A : Type) : Type :=
| Return (a : A)
| Raise (e : exn)
| SysExit (msg : string).

Arguments Return {A} a.
Arguments Raise {A} e.
Arguments SysExit {A} msg.

(** Sequencing: the first call that does not return ends the whole. *)
#[global] Instance outcome_ret : MRet outcome := @Return.
#[global] Instance outcome_bind : MBind outcome := λ A B k m,
  match m with
  | Return a => k a
  | Raise e => Raise e
  | SysExit msg => SysExit msg
  end.

#[global] Instance outcome_fmap : FMap outcome := λ A B f m,
  match m with
  | Return a => Return (f a)
  | Raise e => Raise e
  | SysExit msg => SysExit msg
  end.

(** ** [str.split] and [str.join] for a one-character separator *)

(** [split_first sep s] is the piece of [s] before its first [sep] and
    the pieces after it. *)
Fixpoint split_first (sep : ascii) (s : string) : string * list string :=
  match s with
  | EmptyString => (EmptyString, [])
  | String c s' =>
      let '(w, ws) := split_first sep s' in
      if Ascii.eqb c sep then (EmptyString, w :: ws) else (String c w, ws)
  end.

(** [s.split(sep)]: one piece more than there are separators in [s]. *)
Definition str_split (sep : ascii) (s : string) : list string :=
  let '(w, ws) := split_first sep s in w :: ws.

(** [sep.join(l)]. *)
Definition str_join (sep : string) (l : list string) : string :=
  String.concat sep l.

(** The separator of value lists. *)
Definition comma : ascii := ","%char.

(** Every character of the string passes the test. *)
Fixpoint string_forall (p : ascii → bool) (s : string) : bool :=
  match s with
  | EmptyString => true
  | String c s' => p c && string_forall p s'
  end.

(** A string without a comma. *)
Definition comma_free (s : string) : Prop :=
  string_forall (λ c, negb (Ascii.eqb c comma)) s = true.

(** ** The conversion helpers of [BaseClient] *)

(** [BaseClient._str_to_list]: a string is split on commas, a list is
    returned as it is, anything else leaves the process. *)
Definition _str_to_list (field_name : string) (to_convert : pyval) : outcome pyval :=
  match to_convert with
  | PScalar (SStr s) => Return (PList (SStr <$> str_split comma s))
  | PList xs => Return (PList xs)
  | _ => SysExit "Fields needs to be a list or a string"
  end.

(** [BaseClient._list_to_str]: a list is joined with commas after
    [str] is applied to each element, a string is returned as it is,
    anything else leaves the process. *)
Definition _list_to_str (field_name : string) (to_convert : pyval) : outcome pyval :=
  match to_convert with
  | PList xs => Return (PStr (str_join "," (py_str <$> xs)))
  | PScalar (SStr s) => Return (PStr s)
  | _ => SysExit "Tickers needs to be a list or a string"
  end.

(** ** Predicates *)

(** Modelled from the spec: the operators of a predicate term.  The class
    [Predicate] lives in [tickvaultpythonapi.parsing.predicate], which is
    not among the sources; the spec (section 3) gives the closed
    enumeration. *)
Inductive Operator : Type := EQ | NEQ | GTE | LTE | GT | LT.

(** Modelled from the spec: a predicate term (spec section 3,
    PredicateTerm), the object [run_query] receives in its [predicates]
    list. *)
Record Predicate : Type := mkPredicate {
  field : string;
  operator : Operator;
  values : list string
}.

(** Modelled from the spec: [Predicate.get_as_tuple], missing from the
    sources.  Spec section 4.2: the first element is exactly the term's
    field, the second the comma-join of its values in their order; the
    operator is not encoded. *)
Definition get_as_tuple (p : Predicate) : string * pyval :=
  (field p, PStr (str_join "," (values p))).

(** ** Dict construction *)

(** [d[k] = v] on a dict value. *)
Definition dict_put (d : gmap string pyval) (kv : string * pyval) : gmap string pyval :=
  <[kv.1 := kv.2]> d.

(** [dict(pairs)]: the pairs are inserted from left to right, so a later
    pair replaces an earlier one with the same key. *)
Definition py_dict (pairs : list (string * pyval)) : gmap string pyval :=
  foldl dict_put ∅ pairs.

(** The dict display [{**a, **b}]: a new dict with the items of [a],
    then those of [b], the value of [b] standing where both have a key.
    Unpacking an object that is not a mapping raises [TypeError]. *)
Definition dict_unpack2 (a b : pyval) : outcome pyval :=
  match a, b with
  | PDict da, PDict db => Return (PDict (db ∪ da))
  | _, _ => Raise TypeError
  end.

(** ** [BaseClient.run_query]: predicates into parameters *)

(** The statements of [run_query] between the endpoint's formatting and
    the call of [query]:
<<
    if predicates:
        if not params:
            params = {}
        preds = dict(list(map(Predicate.get_as_tuple, predicates)))
        params = {**params, **preds}
>>
    The result is the object bound to [params] afterwards, which is what
    [query] receives.  [params] defaults to the empty string; the
    default of [predicates], the empty string as well, is as false as the
    empty list and takes the same path. *)
Definition run_query_params (params : pyval) (predicates : list Predicate) : outcome pyval :=
  if bool_decide (predicates ≠ []) then
    let params := if negb (truthy params) then PDict ∅ else params in
    let preds := PDict (py_dict (get_as_tuple <$> predicates)) in
    dict_unpack2 params preds
  else Return params.

(** The default value of [params] and [predicates] in the signature. *)
Definition default_arg : pyval := PStr "".

Section RunQuery.
(** The collaborators of [run_query]: [str.format] applied to the
    endpoint pattern, and [BaseClient.query], which performs the request
    and may leave the process. *)
Context {Auth : Type}.
Variable format : string → gmap string pyval → outcome string.
Variable query : string → Auth → pyval → outcome string.

(** [BaseClient.run_query]. *)
Definition run_query (pattern : string) (replace_dict : gmap string pyval)
    (auth : Auth) (params : pyval) (predicates : list Predicate) : outcome string :=
  endpoint ← format pattern replace_dict;
  params ← run_query_params params predicates;
  query endpoint auth params.
End RunQuery.

(** ** [run_query] over a store of objects *)

(** Python passes references: the caller's dict and predicate list are
    objects that the callee could change in place.  A store maps
    locations to objects; [run_query] receives the locations of its
    [params] and [predicates] arguments. *)
Abbreviation loc := positive.

Inductive object : Type :=
| OVal (v : pyval)
| OPredicates (ps : list Predicate).

Abbreviation store := (gmap loc object).

(** A run over the store ends with an outcome and the store it leaves.
    [None] stands for a run the model does not follow: one that meets a
    location without an object, which no Python execution does, or one
    that iterates over something other than a list of predicates (see
    [iterate]). *)
Definition Run (A : Type) : Type := store → option (outcome A * store).

#[global] Instance run_ret : MRet Run := λ A a σ, Some (Return a, σ).
#[global] Instance run_bind : MBind Run := λ A B k m σ,
  match m σ with
  | Some (Return a, σ') => k a σ'
  | Some (Raise e, σ') => Some (Raise e, σ')
  | Some (SysExit msg, σ') => Some (SysExit msg, σ')
  | None => None
  end.

Definition stuck {A} : Run A := λ _, None.
Definition lift {A} (r : outcome A) : Run A := λ σ, Some (r, σ).

(** Reading the object a reference points to. *)
Definition load (l : loc) : Run object := λ σ,
  match σ !! l with
  | Some o => Some (Return o, σ)
  | None => None
  end.

(** A new object gets a location no object has yet. *)
Definition alloc (o : object) : Run loc := λ σ,
  let l := fresh (dom σ) in Some (Return l, <[l := o]> σ).

(** Truth value of a stored object. *)
Definition object_truthy (o : object) : bool :=
  match o with
  | OVal v => truthy v
  | OPredicates ps => bool_decide (ps ≠ [])
  end.

(** The predicates that [map(Predicate.get_as_tuple, predicates)] visits.
    Iterating a true object that is no list of predicates is left out of
    the model: what it raises depends on [Predicate.get_as_tuple]. *)
Definition iterate (o : object) : Run (list Predicate) :=
  match o with
  | OPredicates ps => mret ps
  | OVal _ => stuck
  end.

(** The dict display on stored objects: only a dict is a mapping. *)
Definition object_unpack2 (a b : object) : outcome object :=
  match a, b with
  | OVal a, OVal b => OVal <$> dict_unpack2 a b
  | _, _ => Raise TypeError
  end.

(** The same statements of [run_query] as [run_query_params], with the
    objects in the store: [{}], [dict(...)] and the dict display each
    make a new object, an assignment to [params] rebinds the local
    name, and no statement stores into an existing object.  The result
    is the location bound to [params] at the end. *)
Definition run_query_store (params predicates : loc) : Run loc :=
  o ← load predicates;
  if object_truthy o then
    ps ← iterate o;
    p ← load params;
    params ← (if negb (object_truthy p) then alloc (OVal (PDict ∅))
              else mret params);
    preds ← alloc (OVal (PDict (py_dict (get_as_tuple <$> ps))));
    a ← load params;
    b ← load preds;
    d ← lift (object_unpack2 a b);
    alloc d
  else mret params.

(** The object a finished run hands on, read from the store it left. *)
Definition result_of (r : option (outcome loc * store)) : option (outcome object) :=
  match r with
  | Some (Return l, σ) => Return <$> σ !! l
  | Some (Raise e, _) => Some (Raise e)
  | Some (SysExit msg, _) => Some (SysExit msg)
  | None => None
  end.

(** ** The predicate grammar *)

(** The parser of [tickvaultpythonapi.parsing.predicate] is not among the
    sources.  The definitions of this part follow section 4.1 of the
    spec: its grammar
<<
    expression   := term (CONJUNCTION term)*
    CONJUNCTION  := "and"            (case-insensitive, whitespace-delimited)
    term         := field WS operator WS value_list
    field        := identifier
    operator     := "=" | "!=" | "<>" | ">=" | "<=" | ">" | "<"
    value_list   := value ("," value)*
    value        := quoted_string | bare_token
>>
    and its list of failures. *)

(** Modelled from the spec: whitespace, which delimits and is trimmed
    (section 4.1). *)
Definition is_space (c : ascii) : bool := Ascii.is_space c.

(** Modelled from the spec: the quotes of a quoted string, single or
    double (section 4.1). *)
Definition is_quote (c : ascii) : bool :=
  Ascii.eqb c "'" || Ascii.eqb c "034".

(** Modelled from the spec: the digits of an identifier. *)
Definition is_digit (c : ascii) : bool :=
  (N.leb 48 (N_of_ascii c) && N.leb (N_of_ascii c) 57)%N.

(** Modelled from the spec: the letters of an identifier. *)
Definition is_letter (c : ascii) : bool :=
  (N.leb 65 (N_of_ascii c) && N.leb (N_of_ascii c) 90
   || N.leb 97 (N_of_ascii c) && N.leb (N_of_ascii c) 122)%N.

(** Modelled from the spec: the characters an operator token is made of:
    what is neither whitespace, nor a character of an identifier, nor a
    quote, nor a comma.  The characters of the operator spellings are
    among them, and so is [~]: [~~] is a token in the operator's place
    (section 8). *)
Definition is_symbol (c : ascii) : bool :=
  negb (is_space c
        || (is_letter c || is_digit c || Ascii.eqb c "_")
        || is_quote c
        || Ascii.eqb c ",").

(** Modelled from the spec: identifier syntax (section 3): letters, digits
    and underscore, not starting with a digit, not empty. *)
Definition is_identifier (f : string) : bool :=
  match f with
  | EmptyString => false
  | String c r =>
      (is_letter c || Ascii.eqb c "_")
      && string_forall (λ x, is_letter x || is_digit x || Ascii.eqb x "_") r
  end.

(** Modelled from the spec: a quoted string may hold commas and spaces
    (section 4.1).  [split_unquoted sep q s] cuts [s] at the characters
    [sep] accepts that stand outside quotes; [q] is the quote that is
    open, if one is.  It returns the piece up to the first cut and the
    pieces after it. *)
Fixpoint split_unquoted (sep : ascii → bool) (q : option ascii) (s : string)
    : string * list string :=
  match s with
  | EmptyString => (EmptyString, [])
  | String c s' =>
      match q with
      | Some qc =>
          let '(w, ws) :=
            split_unquoted sep (if Ascii.eqb c qc then None else Some qc) s' in
          (String c w, ws)
      | None =>
          if sep c then
            let '(w, ws) := split_unquoted sep None s' in (EmptyString, w :: ws)
          else
            let '(w, ws) :=
              split_unquoted sep (if is_quote c then Some c else None) s' in
            (String c w, ws)
      end
  end.

(** Modelled from the spec: the pieces of a text between the separators
    that stand outside quotes. *)
Definition pieces (sep : ascii → bool) (s : string) : list string :=
  let '(w, ws) := split_unquoted sep None s in w :: ws.

(** Modelled from the spec: the whitespace-delimited chunks of the input;
    whitespace inside quotes does not delimit. *)
Definition chunks (s : string) : list string :=
  filter (λ w, w ≠ EmptyString) (pieces is_space s).

(** Modelled from the spec: an expression is cut into its terms at the
    conjunctions.  [split_on p l] cuts the list [l] at the elements [p]
    accepts: the group before the first cut and the groups after it. *)
Fixpoint split_on {A} (p : A → bool) (l : list A) : list A * list (list A) :=
  match l with
  | [] => ([], [])
  | x :: l' =>
      let '(g, gs) := split_on p l' in
      if p x then ([], g :: gs) else (x :: g, gs)
  end.

(** Modelled from the spec: the groups of chunks between the chunks [p]
    accepts, one group per term. *)
Definition groups {A} (p : A → bool) (l : list A) : list (list A) :=
  let '(g, gs) := split_on p l in g :: gs.

(** Modelled from the spec: the conjunction is case-insensitive;
    [lower] maps an upper-case letter to its lower-case form. *)
Definition lower (c : ascii) : ascii :=
  if (N.leb 65 (N_of_ascii c) && N.leb (N_of_ascii c) 90)%N
  then ascii_of_N (N_of_ascii c + 32) else c.

(** Modelled from the spec: a string with a function applied to each of
    its characters, for the case-insensitive comparison. *)
Fixpoint string_map (f : ascii → ascii) (s : string) : string :=
  match s with
  | EmptyString => EmptyString
  | String c s' => String (f c) (string_map f s')
  end.

(** Modelled from the spec: the conjunction keyword, in any case, as a
    chunk of its own. *)
Definition is_conjunction (w : string) : bool :=
  String.eqb (string_map lower w) "and".

(** Modelled from the spec: whitespace around tokens is trimmed;
    [ltrim] drops it at the start. *)
Fixpoint ltrim (s : string) : string :=
  match s with
  | EmptyString => EmptyString
  | String c s' => if is_space c then ltrim s' else s
  end.

(** Modelled from the spec: [rtrim] drops the whitespace at the end. *)
Fixpoint rtrim (s : string) : string :=
  match s with
  | EmptyString => EmptyString
  | String c s' =>
      match rtrim s' with
      | EmptyString => if is_space c then EmptyString else String c EmptyString
      | r => String c r
      end
  end.

(** Modelled from the spec: a trimmed string. *)
Definition trim (s : string) : string := rtrim (ltrim s).

(** Modelled from the spec: the field is the start of the term.
    [take_while p s] is the longest prefix of [s] whose characters [p]
    accepts, and the rest. *)
Fixpoint take_while (p : ascii → bool) (s : string) : string * string :=
  match s with
  | EmptyString => (EmptyString, EmptyString)
  | String c s' =>
      if p c then let '(a, b) := take_while p s' in (String c a, b)
      else (EmptyString, s)
  end.

(** Modelled from the spec: the operator spellings (section 3). *)
Definition operator_table : list (string * Operator) :=
  [("!=", NEQ); ("<>", NEQ); (">=", GTE); ("<=", LTE);
   ("=", EQ); (">", GT); ("<", LT)].

(** Modelled from the spec: the operator an operator token spells, if it
    is one of the closed enumeration. *)
Fixpoint operator_of (table : list (string * Operator)) (tok : string)
    : option Operator :=
  match table with
  | [] => None
  | (spelling, op) :: table' =>
      if String.eqb spelling tok then Some op else operator_of table' tok
  end.

(** Modelled from the spec: a quoted value must be terminated.
    [closes q r]: the quote [q] occurs in [r] once, as its last
    character. *)
Fixpoint closes (q : ascii) (r : string) : bool :=
  match r with
  | EmptyString => false
  | String c EmptyString => Ascii.eqb c q
  | String c r' => negb (Ascii.eqb c q) && closes q r'
  end.

(** Modelled from the spec: one value of a value list.  The value is the
    literal as written, trimmed; it is a quoted string (closed by the
    quote that opens it) or a bare token (no whitespace, no quote).  A
    missing value, as a leading or trailing comma leaves, and an
    unterminated quote are syntax errors. *)
Definition parse_value (piece : string) : outcome string :=
  let v := trim piece in
  match v with
  | EmptyString => Raise PredicateSyntaxError
  | String c r =>
      if is_quote c then
        if closes c r then Return v else Raise PredicateSyntaxError
      else if string_forall (λ x, negb (is_space x || is_quote x)) v then Return v
      else Raise PredicateSyntaxError
  end.

(** Modelled from the spec: one term, given as its chunks.  The field
    runs up to whitespace or a symbol and must be an identifier.  The
    operator token is the run of symbols that follows, read whole, so
    that the longest spelling is the one matched ([>=] is never [>]
    before a value [=...]): a term without such a token is missing its
    operator, a syntax error; a token outside the closed enumeration is
    an unsupported operator.  The rest is the value list. *)
Definition parse_term (term : list string) : outcome Predicate :=
  let s := str_join " " term in
  let '(f, rest) := take_while (λ c, negb (is_space c || is_symbol c)) s in
  if negb (is_identifier f) then Raise PredicateSyntaxError
  else
    let '(tok, vl) := take_while is_symbol (ltrim rest) in
    match tok with
    | EmptyString => Raise PredicateSyntaxError
    | String _ _ =>
        match operator_of operator_table tok with
        | None => Raise UnsupportedOperatorError
        | Some op =>
            vs ← mapM parse_value (pieces (Ascii.eqb ",") vl);
            Return (mkPredicate f op vs)
        end
    end.

(** Modelled from the spec: [parse] on a predicate string (section 6).
    An empty or blank string is a syntax error; otherwise the chunks are
    grouped into terms at the conjunctions and every term must parse: the
    first failure is the result, and no expression is returned with it. *)
Definition parse (raw : string) : outcome (list Predicate) :=
  if string_forall is_space raw then Raise PredicateSyntaxError
  else mapM parse_term (groups is_conjunction (chunks raw)).

(** ** The running example *)

(** The terms of ["line_type = QA,QB and askprice >= 3"]. *)
Definition example_expression : list Predicate :=
  [mkPredicate "line_type" EQ ["QA"; "QB"];
   mkPredicate "askprice" GTE ["3"]].

(** A caller's store: a parameter dict at location 1, the example
    expression at location 2. *)
Definition example_store : store :=
  <[2%positive := OPredicates example_expression]>
    {[ 1%positive := OVal (PDict {[ "limit" := PStr "10" ]}) ]}.

(** Shapes of strings used to state what the grammar does. *)

(** The quote that is open after the string [s] is read with [q] open
    before it, as [split_unquoted] tracks it. *)
Fixpoint open_quote (q : option ascii) (s : string) : option ascii :=
  match s with
  | EmptyString => q
  | String c s' =>
      open_quote
        match q with
        | Some qc => if Ascii.eqb c qc then None else Some qc
        | None => if is_quote c then Some c else None
        end
        s'
  end.

(** Every quote of the string is closed: what follows it stands outside
    quotes. *)
Definition quotes_closed (s : string) : Prop := open_quote None s = None.

(** The string is empty or starts with a character that is no
    separator. *)
Definition head_ok (sep : ascii → bool) (w : string) : Prop :=
  match w with
  | EmptyString => True
  | String c _ => sep c = false
  end.

(** Modelled from the spec: the kinds of malformed term of section 8,
    stated on the text of a term (its chunks joined by one space), with
    or without whitespace between the field and the operator.

    A value is missing: the term ends with its operator, as ["field ="]. *)
Definition missing_value (term : list string) : Prop :=
  ∃ f pad sp op,
    str_join " " term = f +:+ pad +:+ sp
    ∧ is_identifier f = true
    ∧ string_forall is_space pad = true
    ∧ (sp, op) ∈ operator_table.

(** Modelled from the spec: the value list ends with a comma that
    stands outside quotes, as ["field >= 1,"]. *)
Definition trailing_comma (term : list string) : Prop :=
  ∃ f pad sp op vl,
    str_join " " term = f +:+ pad +:+ sp +:+ vl +:+ ","
    ∧ is_identifier f = true
    ∧ string_forall is_space pad = true
    ∧ (sp, op) ∈ operator_table
    ∧ quotes_closed vl
    ∧ head_ok is_symbol (vl +:+ ",").

(** Modelled from the spec: the token in the operator's place is not of
    the closed enumeration, as in ["field ~~ 1"] and ["field == 1"]. *)
Definition unsupported_operator (term : list string) : Prop :=
  ∃ f pad tok tail,
    str_join " " term = f +:+ pad +:+ tok +:+ tail
    ∧ is_identifier f = true
    ∧ string_forall is_space pad = true
    ∧ tok ≠ EmptyString
    ∧ string_forall is_symbol tok = true
    ∧ head_ok is_symbol tail
    ∧ operator_of operator_table tok = None.

(** Modelled from the spec: the invariants of a term (section 3): the
    field is an identifier, the values are not empty, and every value is a
    trimmed, non-empty string. *)
Definition well_formed_value (v : string) : Prop :=
  v ≠ EmptyString ∧ trim v = v.

(** Modelled from the spec: a well-formed term (section 3). *)
Definition well_formed_term (t : Predicate) : Prop :=
  is_identifier (field t) = true
  ∧ values t ≠ []
  ∧ Forall well_formed_value (values t).

(** ** The requests of [BaseClient]: [query] and [get_token] *)

(** The number of occurrences of a character in a string. *)
Fixpoint count_char (c : ascii) (s : string) : nat :=
  match s with
  | EmptyString => 0
  | String a s' => (if Ascii.eqb a c then 1 else 0) + count_char c s'
  end.

(** [s.rstrip(c)] for a one-character argument: [s] without the run of
    [c] at its end. *)
Fixpoint rstrip (c : ascii) (s : string) : string :=
  match s with
  | EmptyString => EmptyString
  | String a s' =>
      match rstrip c s' with
      | EmptyString => if Ascii.eqb a c then EmptyString else String a EmptyString
      | r => String a r
      end
  end.

(** The character [\x00]. *)
Definition nul : ascii := "000"%char.

(** A string of [\x00] characters only (the empty string is one). *)
Definition all_nul (s : string) : bool :=
  string_forall (λ a, Ascii.eqb a nul) s.

Module Http.

(** What the [except] clauses of [query] and [get_token] tell apart in an
    exception: an instance of [requests.exceptions.HTTPError], one of
    [requests.exceptions.ConnectionError], another instance of
    [Exception], or an exception that is no [Exception]
    ([KeyboardInterrupt], for one). *)
Inductive category : Type :=
| HTTPError
| ConnectionError
| OtherException
| NotException.

(** An exception object has a class and its [args]; an argument is a
    plain value or an exception again (a connection error of [requests]
    wraps the error of the layer below). *)
Inductive obj : Type :=
| Py (v : pyval)
| Exc (e : exception)
with exception : Type :=
| mkException (cls : category) (args : list obj).

Definition exc_class (e : exception) : category :=
  match e with mkException cls _ => cls end.

Definition exc_args (e : exception) : list obj :=
  match e with mkException _ args => args end.

(** The built-in exceptions that the expressions of the two functions
    raise themselves. *)
Inductive builtin : Type :=
| IndexError
| AttributeError
| KeyError
| TypeError.

(** An exception on its way out of a function: one of a collaborator
    that no clause caught, or a built-in one. *)
Inductive raised : Type :=
| Propagated (e : exception)
| Builtin (b : builtin).

(** How a call ends: with a value, with an exception, or with
    [sys.exit(v)]. *)
Inductive effect (A : Type) : Type :=
| Ret (a : A)
| Throw (r : raised)
| Exit (v : obj).

Arguments Ret {A} a.
Arguments Throw {A} r.
Arguments Exit {A} v.

#[global] Instance effect_ret : MRet effect := @Ret.
#[global] Instance effect_bind : MBind effect := λ A B k m,
  match m with
  | Ret a => k a
  | Throw r => Throw r
  | Exit v => Exit v
  end.

(** A response of [requests], as far as the client looks at it: what
    [raise_for_status()] raises, if it raises; the truth value of the
    response; its [text]. *)
Record Response : Type := mkResponse {
  status_error : option exception;
  ok : bool;
  text : string
}.

(** What [requests.get] and [requests.post] do: answer or raise. *)
Inductive attempt : Type :=
| Responded (r : Response)
| Failed (e : exception).

(** [x.args[0]] on an exception: the tuple may be empty. *)
Definition first_arg (e : exception) : effect obj :=
  match exc_args e with
  | [] => Throw (Builtin IndexError)
  | a :: _ => Ret a
  end.

(** [x.args] on an object: strings, numbers, lists and dicts have no
    such attribute. *)
Definition args_of (o : obj) : effect exception :=
  match o with
  | Exc e => Ret e
  | Py _ => Throw (Builtin AttributeError)
  end.

(** The three [except] clauses, which [query] and [get_token] share word
    for word:
<<
    except requests.exceptions.HTTPError as e:
        sys.exit(e)
    except requests.exceptions.ConnectionError as e:
        sys.exit(e.args[0].args[0])
    except Exception as e:
        sys.exit(e)
>>
    An exception raised inside a clause is not caught by the others. *)
Definition handle {A} (e : exception) : effect A :=
  match exc_class e with
  | HTTPError => Exit (Exc e)
  | ConnectionError =>
      v ← (a ← first_arg e; inner ← args_of a; first_arg inner);
      Exit v
  | OtherException => Exit (Exc e)
  | NotException => Throw (Propagated e)
  end.

(** The [try] block: the request, then [response.raise_for_status()]. *)
Definition checked (a : attempt) : effect Response :=
  match a with
  | Failed e => handle e
  | Responded r =>
      match status_error r with
      | Some e => handle e
      | None => Ret r
      end
  end.

(** An exception of the request or of [raise_for_status()]: what the
    [try] block can raise. *)
Definition raises (a : attempt) (e : exception) : Prop :=
  a = Failed e ∨ ∃ r, a = Responded r ∧ status_error r = Some e.

(** [ujson.loads] returns the decoded value or raises; nothing around the
    call catches what it raises. *)
Definition decoded (r : exception + pyval) : effect pyval :=
  match r with
  | inl e => Throw (Propagated e)
  | inr v => Ret v
  end.

(** [BaseClient._exit_on_empty_input]. *)
Definition _exit_on_empty_input (field : scalar) (value : pyval) : effect unit :=
  if negb (truthy value) then
    Exit (Py (PStr ("Please provide a value for the field : " +:+ py_str field)))
  else Ret tt.

(** [obj[key]] for a string key. *)
Definition subscript (o : pyval) (key : string) : effect pyval :=
  match o with
  | PDict d =>
      match d !! key with
      | Some v => Ret v
      | None => Throw (Builtin KeyError)
      end
  | _ => Throw (Builtin TypeError)
  end.

(** The headers and the form data of the token request. *)
Definition token_headers : gmap string string :=
  <["Content-Type" := "application/x-www-form-urlencoded"]>
    {[ "Accept" := "application/json" ]}.

Definition token_data : gmap string string :=
  {[ "grant_type" := "client_credentials" ]}.

Section Requests.
(** The collaborators: [requests.get], [requests.post] and
    [ujson.loads]. *)
Context {Auth : Type}.
Variable get : string → pyval → Auth → attempt.
Variable post :
  string → gmap string string → gmap string string → scalar * scalar → attempt.
Variable loads : string → exception + pyval.

(** [BaseClient.query]. *)
Definition query (endpoint : string) (auth : Auth) (params : pyval) : effect string :=
  response ← checked (get endpoint params auth);
  if negb (ok response)
     || String.eqb (rstrip nul (text response)) EmptyString
  then Exit (Py (PStr "Request returned no results"))
  else Ret (text response).

(** [BaseClient.get_token].  Each check receives the argument as the
    field and the field's name as the value, as the source has it. *)
Definition get_token (url user_name secret_key : scalar) : effect pyval :=
  _ ← _exit_on_empty_input url (PStr "url");
  _ ← _exit_on_empty_input user_name (PStr "username");
  _ ← _exit_on_empty_input secret_key (PStr "api key");
  let endpoint := py_str url +:+ "/sso/token" in
  response ←
    checked (post endpoint token_headers token_data (user_name, secret_key));
  jObj ← decoded (loads (text response));
  subscript jObj "access_token".
End Requests.

End Http.

(** * Properties *)

(** ** Splitting and joining *)

Lemma split_first_join (sep : ascii) (s : string) :
  str_join (String sep EmptyString) ((split_first sep s).1 :: (split_first sep s).2) = s.
Proof.
  unfold str_join.
  induction s as [|c s IH]; [reflexivity|].
  cbn [split_first]. destruct (split_first sep s) as [w ws].
  destruct (Ascii.eqb_spec c sep) as [->|_].
  - cbn [fst snd] in *. by rewrite <- IH.
  - cbn [fst snd] in *. rewrite <- IH. by destruct ws.
Qed.

Lemma str_join_split (sep : ascii) (s : string) :
  str_join (String sep EmptyString) (str_split sep s) = s.
Proof.
  unfold str_split. pose proof (split_first_join sep s) as H.
  by destruct (split_first sep s).
Qed.

Lemma py_str_SStr (l : list string) : py_str <$> (SStr <$> l) = l.
Proof. induction l as [|x l IH]; [done|]. cbn. by rewrite IH. Qed.

(** ** Dicts built from pairs *)

Section PyDict.
Implicit Types (d : gmap string pyval) (l : list (string * pyval)) (k : string).

Lemma foldl_dict_put_lookup_notin d l k :
  k ∉ l.*1 → foldl dict_put d l !! k = d !! k.
Proof.
  revert d. induction l as [|[k' v'] l IH]; intros d Hk; [done|].
  cbn in Hk. apply not_elem_of_cons in Hk as [Hne Hk].
  cbn [foldl]. rewrite IH by done. unfold dict_put. cbn.
  by rewrite lookup_insert_ne.
Qed.

Lemma foldl_dict_put_dom d l :
  dom (foldl dict_put d l) = dom d ∪ list_to_set l.*1.
Proof.
  revert d. induction l as [|[k' v'] l IH]; intros d; cbn.
  - set_solver.
  - rewrite IH. unfold dict_put. cbn. rewrite dom_insert_L. set_solver.
Qed.

Lemma foldl_dict_put_size d l :
  size (foldl dict_put d l) ≤ size d + length l.
Proof.
  revert d. induction l as [|[k' v'] l IH]; intros d; cbn [foldl length].
  - lia.
  - etrans; [apply IH|]. unfold dict_put. cbn. rewrite map_size_insert.
    destruct (d !! k'); cbn; lia.
Qed.

Lemma py_dict_lookup_last l1 k v l2 :
  k ∉ l2.*1 → py_dict (l1 ++ (k, v) :: l2) !! k = Some v.
Proof.
  intros Hk. unfold py_dict. rewrite foldl_app. cbn [foldl].
  change (foldl dict_put (<[k:=v]> (foldl dict_put ∅ l1)) l2 !! k = Some v).
  rewrite foldl_dict_put_lookup_notin by done. apply lookup_insert_eq.
Qed.

Lemma py_dict_lookup_notin l k : k ∉ l.*1 → py_dict l !! k = None.
Proof. intros Hk. unfold py_dict. by rewrite (foldl_dict_put_lookup_notin ∅ l k Hk). Qed.

Lemma py_dict_dom l : dom (py_dict l) = list_to_set l.*1.
Proof. unfold py_dict. rewrite (foldl_dict_put_dom ∅ l). set_solver. Qed.

Lemma py_dict_size l : size (py_dict l) ≤ length l.
Proof. unfold py_dict. pose proof (foldl_dict_put_size ∅ l) as H. by rewrite map_size_empty in H. Qed.

End PyDict.

Lemma get_as_tuple_keys (preds : list Predicate) :
  (get_as_tuple <$> preds).*1 = field <$> preds.
Proof. induction preds as [|p preds IH]; [done|]. cbn. by rewrite IH. Qed.

(** ** What [run_query] does to the parameters *)

(** With a dict for [params], the statements return a dict: the
    predicates' dict laid over the caller's. *)
Lemma run_query_params_dict (d : gmap string pyval) (preds : list Predicate) :
  run_query_params (PDict d) preds
  = Return (PDict (py_dict (get_as_tuple <$> preds) ∪ d)).
Proof.
  unfold run_query_params. case_bool_decide as Hne.
  - cbn [truthy]. case_bool_decide as Hd; cbn [negb dict_unpack2]; [|done].
    by rewrite Hd.
  - assert (preds = []) as -> by (by destruct preds; [|destruct Hne]).
    cbn. by rewrite (left_id_L ∅ (∪)).
Qed.

Section RunQueryFacts.
Context {Auth : Type}.
Variable format : string → gmap string pyval → outcome string.
Variable query : string → Auth → pyval → outcome string.

(** What [query] receives from [run_query] when the endpoint formats and
    [params] is a dict. *)
Lemma run_query_dict (pattern endpoint : string) (replace_dict : gmap string pyval)
    (auth : Auth) (d : gmap string pyval) (preds : list Predicate) :
  format pattern replace_dict = Return endpoint →
  run_query format query pattern replace_dict auth (PDict d) preds
  = query endpoint auth (PDict (py_dict (get_as_tuple <$> preds) ∪ d)).
Proof.
  intros Hformat. unfold run_query.
  by rewrite Hformat, run_query_params_dict.
Qed.

End RunQueryFacts.

(** C1.  Serializing a predicate expression into a parameter dict returns
    the union of the two: the result is the dict of the (field,
    comma-joined values) tuples laid over the input dict, its keys are
    the input's keys and the predicates' fields, and every key of the
    input that is not a predicate's field keeps its value (and no other
    key appears).  The two-term example serialized into
    [{"limit": "10"}] gives [{"limit": "10", "line_type": "QA,QB",
    "askprice": "3"}]. *)
Theorem run_query_params_union (d : gmap string pyval) (preds : list Predicate) :
  (∃ r,
      run_query_params (PDict d) preds = Return (PDict r)
      ∧ r = py_dict (get_as_tuple <$> preds) ∪ d
      ∧ dom r = dom d ∪ list_to_set (field <$> preds)
      ∧ (∀ k, k ∉ field <$> preds → r !! k = d !! k)
      ∧ (∀ k v, py_dict (get_as_tuple <$> preds) !! k = Some v → r !! k = Some v))
  ∧ run_query_params (PDict {[ "limit" := PStr "10" ]}) example_expression
    = Return (PDict (<["limit" := PStr "10"]>
                       (<["line_type" := PStr "QA,QB"]>
                          {[ "askprice" := PStr "3" ]}))).
Proof.
  split; [|by vm_compute].
  eexists. split; [apply run_query_params_dict|].
  split; [done|]. split; [|split].
  - rewrite dom_union_L, py_dict_dom, get_as_tuple_keys. apply (comm_L (∪)).
  - intros k Hk. apply lookup_union_r, py_dict_lookup_notin.
    by rewrite get_as_tuple_keys.
  - intros k v Hk. by apply lookup_union_Some_l.
Qed.

(** The caller's [limit] stays, the predicates' fields are added. *)
Lemma run_query_params_union_witness :
  ∃ r,
    run_query_params (PDict {[ "limit" := PStr "10" ]}) example_expression
    = Return (PDict r)
    ∧ r !! "limit" = Some (PStr "10")
    ∧ r !! "line_type" = Some (PStr "QA,QB").
Proof.
  destruct (run_query_params_union {[ "limit" := PStr "10" ]} example_expression)
    as [(r & Hr & _ & _ & Hkeep & Hpred) _].
  exists r. split; [exact Hr|]. split.
  - rewrite Hkeep; [reflexivity|].
    apply (bool_decide_unpack _). vm_compute. exact I.
  - apply Hpred. reflexivity.
Defined.

(** C2.  Serializing an expression of [n] terms into the empty dict gives
    a dict of at most [n] keys, and a field that several terms name
    carries the value of the last of them: for every term with no later
    term of the same field, the dict maps its field to its comma-joined
    values, whatever the earlier terms say. *)
Theorem run_query_params_last_write_wins (preds : list Predicate) :
  ∃ r,
    run_query_params (PDict ∅) preds = Return (PDict r)
    ∧ size r ≤ length preds
    ∧ (∀ pre t post,
          preds = pre ++ t :: post →
          (∀ t', t' ∈ post → field t' ≠ field t) →
          r !! field t = Some (PStr (str_join "," (values t)))).
Proof.
  eexists. split; [apply run_query_params_dict|].
  rewrite (right_id_L ∅ (∪)). split.
  - etrans; [apply py_dict_size|]. by rewrite length_fmap.
  - intros pre t post -> Hlast. rewrite fmap_app, fmap_cons.
    apply (py_dict_lookup_last _ (field t)).
    rewrite get_as_tuple_keys. intros (t' & Heq & Hin)%list_elem_of_fmap.
    by apply (Hlast t').
Qed.

(** A field named twice: the later term's value is the one kept, and the
    dict has one key for the two terms. *)
Lemma run_query_params_last_write_wins_witness :
  ∃ r,
    run_query_params (PDict ∅)
      [mkPredicate "price" GT ["1"]; mkPredicate "price" LT ["9"; "10"]]
    = Return (PDict r)
    ∧ size r ≤ 2
    ∧ r !! "price" = Some (PStr "9,10").
Proof.
  destruct (run_query_params_last_write_wins
              [mkPredicate "price" GT ["1"]; mkPredicate "price" LT ["9"; "10"]])
    as (r & Hr & Hsize & Hlast).
  exists r. split; [exact Hr|]. split; [exact Hsize|].
  apply (Hlast [mkPredicate "price" GT ["1"]] (mkPredicate "price" LT ["9"; "10"]) []).
  - reflexivity.
  - intros t' Hin. by apply elem_of_nil in Hin.
Defined.

(** C5.  Serialization into a parameter dict never raises and never
    leaves the process: for every list of predicates (well-formed or not)
    and every dict the statements return a dict.  The same holds when
    [params] is left at its default. *)
Theorem run_query_params_returns (preds : list Predicate) :
  (∀ d : gmap string pyval, ∃ r, run_query_params (PDict d) preds = Return (PDict r))
  ∧ (∃ r, run_query_params default_arg preds = Return r)
  ∧ (∀ (params : pyval) (e : exn),
        run_query_params params preds = Raise e →
        e = TypeError ∧ truthy params = true ∧ ∀ d, params ≠ PDict d)
  ∧ (∀ (params : pyval) (msg : string),
        run_query_params params preds ≠ SysExit msg).
Proof.
  split; [|split; [|split]].
  - intros d. eexists. apply run_query_params_dict.
  - unfold run_query_params, default_arg. case_bool_decide; cbn; eauto.
  - intros params e. unfold run_query_params.
    case_bool_decide; [|done].
    destruct (truthy params) eqn:Ht; cbn; [|done].
    destruct params as [a|xs|d]; cbn; [| |done]; intros [= <-]; done.
  - intros params msg. unfold run_query_params.
    case_bool_decide; [|done].
    destruct (truthy params); cbn; [|done].
    by destruct params.
Qed.

(** A query string passed for [params] is no mapping: the dict display
    raises [TypeError], the one failure of the step. *)
Lemma run_query_params_returns_witness :
  run_query_params (PStr "limit=10") example_expression = Raise TypeError
  ∧ TypeError = TypeError
  ∧ truthy (PStr "limit=10") = true
  ∧ ∀ d, PStr "limit=10" ≠ PDict d.
Proof.
  destruct (run_query_params_returns example_expression) as (_ & _ & Hraise & _).
  split; [reflexivity|].
  apply (Hraise (PStr "limit=10") TypeError). reflexivity.
Defined.

(** The last term of an expression that names a given field. *)
Lemma last_term_of_field (preds : list Predicate) (k : string) :
  k ∈ field <$> preds →
  ∃ pre t post,
    preds = pre ++ t :: post ∧ field t = k ∧ ∀ t', t' ∈ post → field t' ≠ k.
Proof.
  induction preds as [|t0 preds IH]; [by intros ?%elem_of_nil|].
  intros Hin. destruct (decide (k ∈ field <$> preds)) as [Hlater|Hlast].
  - destruct (IH Hlater) as (pre & t & post & -> & Hk & Hpost).
    by exists (t0 :: pre), t, post.
  - cbn in Hin. apply elem_of_cons in Hin as [Hk|Hin]; [|done].
    exists [], t0, preds. split; [done|]. split; [done|].
    intros t' Hin' Heq. apply Hlast. apply list_elem_of_fmap. by exists t'.
Qed.

(** C9.  A key that the caller's dict and the predicates' tuples share gets
    the predicate's value: for every key of the input dict that is the
    field of a term, the result maps it to the comma-joined values of the
    term (the last one that names the field), not to the value the dict
    had. *)
Theorem run_query_params_predicate_wins
    (d : gmap string pyval) (preds : list Predicate) (k : string) (old : pyval) :
  d !! k = Some old →
  k ∈ field <$> preds →
  ∃ r pre t post,
    run_query_params (PDict d) preds = Return (PDict r)
    ∧ preds = pre ++ t :: post
    ∧ field t = k
    ∧ (∀ t', t' ∈ post → field t' ≠ k)
    ∧ r !! k = Some (PStr (str_join "," (values t))).
Proof.
  intros _ Hin.
  destruct (last_term_of_field preds k Hin) as (pre & t & post & -> & <- & Hlast).
  eexists _, pre, t, post. split; [apply run_query_params_dict|].
  split; [done|]. split; [done|]. split; [done|].
  apply lookup_union_Some_l. rewrite fmap_app, fmap_cons.
  apply (py_dict_lookup_last _ (field t)).
  rewrite get_as_tuple_keys. intros (t' & Heq & Hin')%list_elem_of_fmap.
  by apply (Hlast t').
Qed.

(** The caller asks for ten rows, the predicate names [limit] as well. *)
Lemma run_query_params_predicate_wins_witness :
  ∃ r pre t post,
    run_query_params (PDict {[ "limit" := PStr "10" ]})
      [mkPredicate "askprice" GTE ["3"]; mkPredicate "limit" EQ ["5"]]
    = Return (PDict r)
    ∧ [mkPredicate "askprice" GTE ["3"]; mkPredicate "limit" EQ ["5"]]
      = pre ++ t :: post
    ∧ field t = "limit"
    ∧ (∀ t', t' ∈ post → field t' ≠ "limit")
    ∧ r !! "limit" = Some (PStr (str_join "," (values t))).
Proof.
  apply (run_query_params_predicate_wins
           {[ "limit" := PStr "10" ]}
           [mkPredicate "askprice" GTE ["3"]; mkPredicate "limit" EQ ["5"]]
           "limit" (PStr "10")).
  - reflexivity.
  - cbn. apply list_elem_of_further, list_elem_of_here.
Defined.

(** ** Runs over the store *)

Lemma fresh_lookup_None (σ : store) : σ !! fresh (dom σ) = None.
Proof. apply not_elem_of_dom, is_fresh. Qed.

Lemma alloc_extends (o : object) (σ : store) : σ ⊆ <[fresh (dom σ) := o]> σ.
Proof. apply insert_subseteq, fresh_lookup_None. Qed.

Lemma load_at (l : loc) (o : object) (σ : store) :
  σ !! l = Some o → load l σ = Some (Return o, σ).
Proof. intros H. unfold load. by rewrite H. Qed.

Lemma run_bind_return {A B} (m : Run A) (k : A → Run B) (a : A) (σ σ' : store) :
  m σ = Some (Return a, σ') → (m ≫= k) σ = k a σ'.
Proof. intros H. unfold mbind, run_bind. by rewrite H. Qed.

(** A run of [run_query_store] on a store that holds the arguments ends,
    leaves every object of the store as it was, and hands on the object
    that [run_query_params] computes from the arguments' values. *)
Lemma run_query_store_spec (σ : store) (params predicates : loc)
    (p : pyval) (ps : list Predicate) :
  σ !! params = Some (OVal p) →
  σ !! predicates = Some (OPredicates ps) →
  ∃ r σ',
    run_query_store params predicates σ = Some (r, σ')
    ∧ σ ⊆ σ'
    ∧ result_of (Some (r, σ')) = Some (OVal <$> run_query_params p ps).
Proof.
  intros Hp Hps. unfold run_query_store, run_query_params.
  rewrite (run_bind_return _ _ (OPredicates ps) σ σ) by by apply load_at.
  cbn [object_truthy iterate].
  case_bool_decide as Hne; [|by exists (Return params), σ; cbn; rewrite Hp].
  rewrite (run_bind_return _ _ ps σ σ) by done.
  rewrite (run_bind_return _ _ (OVal p) σ σ) by by apply load_at.
  cbn [object_truthy].
  set (q := py_dict (get_as_tuple <$> ps)).
  destruct (truthy p) eqn:Ht; cbn [negb].
  - set (l2 := fresh (dom σ)). set (σ2 := <[l2 := OVal (PDict q)]> σ).
    assert (σ ⊆ σ2) as Hsub2 by apply alloc_extends.
    assert (σ2 !! params = Some (OVal p)) as Hp2 by by eapply lookup_weaken.
    assert (σ2 !! l2 = Some (OVal (PDict q))) as Hq2 by apply lookup_insert_eq.
    rewrite (run_bind_return _ _ params σ σ) by done.
    rewrite (run_bind_return _ _ l2 σ σ2) by done.
    rewrite (run_bind_return _ _ (OVal p) σ2 σ2) by by apply load_at.
    rewrite (run_bind_return _ _ (OVal (PDict q)) σ2 σ2) by by apply load_at.
    cbn [object_unpack2].
    destruct (dict_unpack2 p (PDict q)) as [d|e|msg] eqn:Hd.
    + rewrite (run_bind_return _ _ (OVal d) σ2 σ2) by done.
      eexists _, _. split; [reflexivity|]. split.
      * etrans; [exact Hsub2|]. apply alloc_extends.
      * cbn. by rewrite lookup_insert_eq.
    + by exists (Raise e), σ2.
    + by exists (SysExit msg), σ2.
  - set (l1 := fresh (dom σ)). set (σ1 := <[l1 := OVal (PDict ∅)]> σ).
    set (l2 := fresh (dom σ1)). set (σ2 := <[l2 := OVal (PDict q)]> σ1).
    assert (σ ⊆ σ1) as Hsub1 by apply alloc_extends.
    assert (σ1 ⊆ σ2) as Hsub2 by apply alloc_extends.
    assert (σ1 !! l1 = Some (OVal (PDict ∅))) as Hl1 by apply lookup_insert_eq.
    assert (σ2 !! l1 = Some (OVal (PDict ∅))) as Hl1' by by eapply lookup_weaken.
    assert (σ2 !! l2 = Some (OVal (PDict q))) as Hq2 by apply lookup_insert_eq.
    rewrite (run_bind_return _ _ l1 σ σ1) by done.
    rewrite (run_bind_return _ _ l2 σ1 σ2) by done.
    rewrite (run_bind_return _ _ (OVal (PDict ∅)) σ2 σ2) by by apply load_at.
    rewrite (run_bind_return _ _ (OVal (PDict q)) σ2 σ2) by by apply load_at.
    cbn [object_unpack2 dict_unpack2].
    rewrite (run_bind_return _ _ (OVal (PDict (q ∪ ∅))) σ2 σ2) by done.
    eexists _, _. split; [reflexivity|]. split.
    + etrans; [exact Hsub1|]. etrans; [exact Hsub2|]. apply alloc_extends.
    + cbn. by rewrite lookup_insert_eq.
Qed.

(** C6.  Serialization is deterministic and changes none of its inputs.
    Running [run_query]'s statements twice on the same arguments, the
    second run on the store the first one left: both runs end, every
    object that was in the store before (the caller's [params] and
    predicate list among them) is the same object afterwards, the two
    runs hand on equal results, and that result is the one
    [run_query_params] computes from the arguments' values. *)
Theorem run_query_store_pure (σ : store) (params predicates : loc)
    (p : pyval) (ps : list Predicate) :
  σ !! params = Some (OVal p) →
  σ !! predicates = Some (OPredicates ps) →
  ∃ r1 σ1 r2 σ2,
    run_query_store params predicates σ = Some (r1, σ1)
    ∧ run_query_store params predicates σ1 = Some (r2, σ2)
    ∧ (∀ l o, σ !! l = Some o → σ1 !! l = Some o ∧ σ2 !! l = Some o)
    ∧ σ2 !! params = Some (OVal p)
    ∧ σ2 !! predicates = Some (OPredicates ps)
    ∧ result_of (Some (r1, σ1)) = result_of (Some (r2, σ2))
    ∧ result_of (Some (r1, σ1)) = Some (OVal <$> run_query_params p ps).
Proof.
  intros Hp Hps.
  destruct (run_query_store_spec σ params predicates p ps Hp Hps)
    as (r1 & σ1 & Hrun1 & Hsub1 & Hres1).
  assert (σ1 !! params = Some (OVal p)) as Hp1 by by eapply lookup_weaken.
  assert (σ1 !! predicates = Some (OPredicates ps)) as Hps1
    by by eapply lookup_weaken.
  destruct (run_query_store_spec σ1 params predicates p ps Hp1 Hps1)
    as (r2 & σ2 & Hrun2 & Hsub2 & Hres2).
  exists r1, σ1, r2, σ2. repeat split.
  - exact Hrun1.
  - exact Hrun2.
  - by eapply lookup_weaken.
  - eapply lookup_weaken; [|exact Hsub2]. by eapply lookup_weaken.
  - by eapply lookup_weaken.
  - by eapply lookup_weaken.
  - by rewrite Hres1, Hres2.
  - exact Hres1.
Qed.

(** The example expression and a one-key dict as the caller's objects. *)
Lemma run_query_store_pure_witness :
  ∃ r1 σ1 r2 σ2,
    run_query_store 1 2 example_store = Some (r1, σ1)
    ∧ run_query_store 1 2 σ1 = Some (r2, σ2)
    ∧ (∀ l o, example_store !! l = Some o → σ1 !! l = Some o ∧ σ2 !! l = Some o)
    ∧ σ2 !! 1%positive = Some (OVal (PDict {[ "limit" := PStr "10" ]}))
    ∧ σ2 !! 2%positive = Some (OPredicates example_expression)
    ∧ result_of (Some (r1, σ1)) = result_of (Some (r2, σ2))
    ∧ result_of (Some (r1, σ1))
      = Some (OVal <$> run_query_params (PDict {[ "limit" := PStr "10" ]})
                         example_expression).
Proof.
  apply (run_query_store_pure example_store 1 2
           (PDict {[ "limit" := PStr "10" ]}) example_expression).
  - reflexivity.
  - reflexivity.
Defined.

(** With no predicate (an empty list, or the default) the store is left
    as it is and the location of the caller's [params] is the result. *)
Lemma run_query_store_no_predicates (σ : store) (params predicates : loc)
    (o : object) :
  σ !! predicates = Some o → object_truthy o = false →
  run_query_store params predicates σ = Some (Return params, σ).
Proof.
  intros Ho Hfalse. unfold run_query_store.
  rewrite (run_bind_return _ _ o σ σ) by by apply load_at.
  by rewrite Hfalse.
Qed.

(** C4.  With no predicate, [run_query] leaves [params] as it is: the
    value handed on is the value passed, whatever it is, and over the
    store the caller's own object is handed on and no object is added,
    removed or changed (for the empty list as for the default of
    [predicates]). *)
Theorem run_query_params_no_predicates :
  (∀ params : pyval, run_query_params params [] = Return params)
  ∧ (∀ (σ : store) (params predicates : loc) (o : object),
        σ !! predicates = Some o →
        o = OPredicates [] ∨ o = OVal default_arg →
        run_query_store params predicates σ = Some (Return params, σ)).
Proof.
  split.
  - intros params. unfold run_query_params.
    rewrite bool_decide_false; [done|].
    intros Hne. by apply Hne.
  - intros σ params predicates o Ho Hempty.
    apply (run_query_store_no_predicates σ params predicates o Ho).
    by destruct Hempty as [-> | ->].
Qed.

(** The caller's store with an empty predicate list at location 3. *)
Lemma run_query_params_no_predicates_witness :
  run_query_store 1 3 (<[3%positive := OPredicates []]> example_store)
  = Some (Return 1%positive, <[3%positive := OPredicates []]> example_store).
Proof.
  destruct run_query_params_no_predicates as [_ Hstore].
  apply (Hstore _ 1%positive 3%positive (OPredicates [])).
  - reflexivity.
  - left. reflexivity.
Defined.

(** ** The tuple of a term *)

Lemma split_first_comma_free (w rest : string) :
  comma_free w →
  split_first comma (w +:+ String comma rest)
  = (w, (split_first comma rest).1 :: (split_first comma rest).2).
Proof.
  unfold comma_free. induction w as [|c w IH]; intros Hw.
  - change (EmptyString +:+ String comma rest) with (String comma rest).
    cbn [split_first]. rewrite Ascii.eqb_refl.
    by destruct (split_first comma rest).
  - cbn in Hw. apply andb_true_iff in Hw as [Hc Hw].
    change (String c w +:+ String comma rest)
      with (String c (w +:+ String comma rest)).
    cbn [split_first]. rewrite (IH Hw).
    apply negb_true_iff in Hc. by rewrite Hc.
Qed.

Lemma split_first_comma_free_end (w : string) :
  comma_free w → split_first comma w = (w, []).
Proof.
  unfold comma_free. induction w as [|c w IH]; intros Hw; [done|].
  cbn in Hw. apply andb_true_iff in Hw as [Hc Hw].
  cbn [split_first]. rewrite (IH Hw).
  apply negb_true_iff in Hc. by rewrite Hc.
Qed.

(** Joining comma-free strings and splitting the result gives the strings
    back, in their order. *)
Lemma str_split_join (vs : list string) :
  vs ≠ [] → Forall comma_free vs → str_split comma (str_join "," vs) = vs.
Proof.
  intros Hne Hall. unfold str_split, str_join.
  induction Hall as [|v vs Hv Hall IH]; [done|].
  destruct vs as [|v' vs].
  - cbn. by rewrite split_first_comma_free_end.
  - change (String.concat "," (v :: v' :: vs))
      with (v +:+ String comma (String.concat "," (v' :: vs))).
    rewrite split_first_comma_free by done.
    specialize (IH ltac:(done)).
    destruct (split_first comma (String.concat "," (v' :: vs))) as [w ws].
    cbn. by rewrite IH.
Qed.

(** C3.  Whatever its operator, a term's tuple is its field, unchanged,
    and the comma-join of its values in their order: the operator is not
    encoded (the tuple is the one of the equality term with the same
    field and values), and nothing is escaped: splitting the joined
    string at its commas gives the values back whenever none of them
    holds a comma, and characters such as a space or [&] pass through as
    they are. *)
Theorem get_as_tuple_ignores_operator (t : Predicate) :
  get_as_tuple t = (field t, PStr (str_join "," (values t)))
  ∧ (∀ op : Operator,
        get_as_tuple (mkPredicate (field t) op (values t))
        = get_as_tuple (mkPredicate (field t) EQ (values t)))
  ∧ (values t ≠ [] → Forall comma_free (values t) →
     ∃ s, (get_as_tuple t).2 = PStr s ∧ str_split comma s = values t)
  ∧ get_as_tuple (mkPredicate "Name" NEQ ["a b"; "c&d=e"; "100%"])
    = ("Name", PStr "a b,c&d=e,100%").
Proof.
  destruct t as [f op vs]. cbn [field values].
  split; [reflexivity|]. split; [by intros op'|]. split; [|reflexivity].
  intros Hne Hfree. exists (str_join "," vs). split; [reflexivity|].
  by apply str_split_join.
Qed.

(** The values of [line_type = QA,QB] can be read back from its tuple. *)
Lemma get_as_tuple_ignores_operator_witness :
  ∃ s,
    (get_as_tuple (mkPredicate "line_type" EQ ["QA"; "QB"])).2 = PStr s
    ∧ str_split comma s = ["QA"; "QB"].
Proof.
  destruct (get_as_tuple_ignores_operator (mkPredicate "line_type" EQ ["QA"; "QB"]))
    as (_ & _ & Hback & _).
  apply Hback.
  - discriminate.
  - repeat constructor.
Defined.

(** C7.  The predicate string ["line_type = QA,QB and askprice >= 3"]
    parses to the two terms [line_type EQ [QA, QB]] and
    [askprice GTE [3]], in this order, and these serialize into the empty
    dict as [{"line_type": "QA,QB", "askprice": "3"}]. *)
Theorem parse_then_serialize_example :
  parse "line_type = QA,QB and askprice >= 3"
  = Return [mkPredicate "line_type" EQ ["QA"; "QB"];
            mkPredicate "askprice" GTE ["3"]]
  ∧ run_query_params (PDict ∅)
      [mkPredicate "line_type" EQ ["QA"; "QB"];
       mkPredicate "askprice" GTE ["3"]]
    = Return (PDict (<["line_type" := PStr "QA,QB"]>
                       {[ "askprice" := PStr "3" ]}))
  ∧ (preds ← parse "line_type = QA,QB and askprice >= 3";
     run_query_params (PDict ∅) preds)
    = Return (PDict (<["line_type" := PStr "QA,QB"]>
                       {[ "askprice" := PStr "3" ]})).
Proof.
  assert (parse "line_type = QA,QB and askprice >= 3"
          = Return example_expression) as Hparse by by vm_compute.
  assert (run_query_params (PDict ∅) example_expression
          = Return (PDict (<["line_type" := PStr "QA,QB"]>
                             {[ "askprice" := PStr "3" ]}))) as Hser.
  { rewrite run_query_params_dict. by vm_compute. }
  split; [exact Hparse|]. split; [exact Hser|].
  rewrite Hparse. exact Hser.
Qed.

(** C10.  The two helpers form a round trip on strings: a string split
    by [_str_to_list] and joined again by [_list_to_str] is the string
    itself.  [_str_to_list] returns a list for a string and for a list,
    the list itself in the second case; [_list_to_str] returns a string
    for a list and for a string, the string itself in the second case. *)
Theorem str_list_round_trip :
  (∀ f g s, (l ← _str_to_list f (PStr s); _list_to_str g l) = Return (PStr s))
  ∧ (∀ f s, ∃ xs, _str_to_list f (PStr s) = Return (PList xs))
  ∧ (∀ f xs, _str_to_list f (PList xs) = Return (PList xs))
  ∧ (∀ f xs, ∃ s, _list_to_str f (PList xs) = Return (PStr s))
  ∧ (∀ f s, _list_to_str f (PStr s) = Return (PStr s)).
Proof.
  split; [|split; [|split; [|split]]].
  - intros f g s.
    change (Return (PStr (str_join "," (py_str <$> (SStr <$> str_split comma s))))
            = Return (PStr s)).
    rewrite py_str_SStr. do 3 f_equal. apply (str_join_split comma s).
  - intros f s. by eexists.
  - done.
  - intros f xs. by eexists.
  - done.
Qed.

(** ** The predicate grammar: characters and words *)

Lemma ident_char_plain (c : ascii) :
  is_letter c || is_digit c || Ascii.eqb c "_" = true →
  negb (is_space c || is_symbol c) = true.
Proof.
  destruct c as [[] [] [] [] [] [] [] []]; vm_compute; congruence.
Qed.

Lemma symbol_not_space (c : ascii) : is_symbol c = true → is_space c = false.
Proof.
  unfold is_symbol. destruct (is_space c); [|done]. by cbn.
Qed.

Lemma string_forall_impl (p q : ascii → bool) (s : string) :
  (∀ c, p c = true → q c = true) →
  string_forall p s = true → string_forall q s = true.
Proof.
  intros Hpq. induction s as [|c s IH]; [done|]. cbn.
  intros [Hc Hs]%andb_true_iff. rewrite (Hpq c Hc). by apply IH.
Qed.

Lemma identifier_plain (f : string) :
  is_identifier f = true →
  string_forall (λ c, negb (is_space c || is_symbol c)) f = true.
Proof.
  destruct f as [|c f]; [done|]. cbn [is_identifier string_forall].
  intros [Hc Hf]%andb_true_iff. apply andb_true_iff. split.
  - apply ident_char_plain. apply orb_true_iff in Hc as [->| ->]; [done|].
    apply orb_true_r.
  - revert Hf. apply string_forall_impl, ident_char_plain.
Qed.

Lemma string_app_cons (c : ascii) (s t : string) :
  String c s +:+ t = String c (s +:+ t).
Proof. reflexivity. Qed.

Lemma string_app_nil_l (t : string) : EmptyString +:+ t = t.
Proof. reflexivity. Qed.

Lemma string_app_nil_r (s : string) : s +:+ EmptyString = s.
Proof. induction s as [|c s IH]; [done|]. by rewrite string_app_cons, IH. Qed.

(** [take_while] stops where the predicate first fails. *)
Lemma take_while_app (p : ascii → bool) (w rest : string) :
  string_forall p w = true →
  head_ok p rest →
  take_while p (w +:+ rest) = (w, rest).
Proof.
  intros Hw Hrest. induction w as [|c w IH].
  - rewrite string_app_nil_l. destruct rest as [|c rest]; [done|].
    cbn in *. by rewrite Hrest.
  - cbn in Hw. apply andb_true_iff in Hw as [Hc Hw].
    rewrite string_app_cons. cbn [take_while]. rewrite Hc.
    by rewrite (IH Hw).
Qed.

Lemma ltrim_nonspace (c : ascii) (s : string) :
  is_space c = false → ltrim (String c s) = String c s.
Proof. intros Hc. cbn. by rewrite Hc. Qed.

(** Whitespace before a text that does not start with whitespace is what
    [ltrim] drops. *)
Lemma ltrim_pad (pad : string) (c : ascii) (s : string) :
  string_forall is_space pad = true → is_space c = false →
  ltrim (pad +:+ String c s) = String c s.
Proof.
  intros Hpad Hc. induction pad as [|a pad IH].
  - rewrite string_app_nil_l. by apply ltrim_nonspace.
  - cbn in Hpad. apply andb_true_iff in Hpad as [Ha Hpad].
    rewrite string_app_cons. cbn [ltrim]. rewrite Ha. by apply IH.
Qed.

(** ** The predicate grammar: operators *)

(** A spelling of the table is a token of symbols and spells its
    operator. *)
Lemma spelling_token (sp : string) (op : Operator) :
  (sp, op) ∈ operator_table →
  sp ≠ EmptyString
  ∧ string_forall is_symbol sp = true
  ∧ operator_of operator_table sp = Some op.
Proof.
  intros Hin. unfold operator_table in Hin.
  repeat (apply elem_of_cons in Hin as [[= -> ->]|Hin]);
    [..|by apply elem_of_nil in Hin]; by repeat split.
Qed.

(** ** The predicate grammar: chunks and groups *)

Lemma split_unquoted_blank (s : string) :
  string_forall is_space s = true →
  Forall (λ w, w = EmptyString)
    ((split_unquoted is_space None s).1 :: (split_unquoted is_space None s).2).
Proof.
  induction s as [|c s IH]; [by repeat constructor|].
  cbn [string_forall split_unquoted]. intros [Hc Hs]%andb_true_iff.
  rewrite Hc. specialize (IH Hs).
  destruct (split_unquoted is_space None s) as [w ws]. by constructor.
Qed.

Lemma chunks_blank (s : string) :
  string_forall is_space s = true → chunks s = [].
Proof.
  intros Hs. unfold chunks, pieces.
  pose proof (split_unquoted_blank s Hs) as Hall.
  destruct (split_unquoted is_space None s) as [w ws]. cbn [fst snd] in Hall.
  induction Hall as [|x l -> _ IH]; [done|].
  rewrite filter_cons_False; [exact IH|]. by intros H.
Qed.

Lemma groups_nonempty {A} (p : A → bool) (l : list A) : groups p l ≠ [].
Proof. unfold groups. by destruct (split_on p l). Qed.

(** ** The predicate grammar: [mapM] over outcomes *)

Lemma mapM_outcome_cons {A B} (f : A → outcome B) (x : A) (l : list A) :
  mapM f (x :: l) = (y ← f x; k ← mapM f l; Return (y :: k)).
Proof. reflexivity. Qed.

(** If [f] can fail in one way only and fails on an element of the list,
    the whole fails in that way. *)
Lemma mapM_outcome_raise {A B} (f : A → outcome B) (e : exn) (l : list A) :
  (∀ x, f x = Raise e ∨ ∃ y, f x = Return y) →
  Exists (λ x, f x = Raise e) l → mapM f l = Raise e.
Proof.
  intros Hf. induction l as [|x l IH]; intros Hex; [by apply Exists_nil in Hex|].
  rewrite mapM_outcome_cons. destruct (Hf x) as [Hx|[y Hx]]; rewrite Hx; [done|].
  apply Exists_cons in Hex as [Hex|Hex]; [congruence|].
  cbn. by rewrite (IH Hex).
Qed.

(** The whole returns exactly when every element does, and then returns
    one result per element, in order. *)
Lemma mapM_outcome_return {A B} (f : A → outcome B) (l : list A) (k : list B) :
  mapM f l = Return k ↔ Forall2 (λ x y, f x = Return y) l k.
Proof.
  split.
  - revert k. induction l as [|x l IH]; intros k.
    + cbn. intros [= <-]. constructor.
    + rewrite mapM_outcome_cons. destruct (f x) as [y| |] eqn:Hx; [|done..].
      cbn. destruct (mapM f l) as [k'| |] eqn:Hl; [|done..].
      cbn. intros [= <-]. constructor; [done|]. by apply IH.
  - induction 1 as [|x y l k Hx _ IH]; [done|].
    rewrite mapM_outcome_cons, Hx. cbn. by rewrite IH.
Qed.

(** The first element that fails decides how the whole ends. *)
Lemma mapM_outcome_first_failure {A B} (f : A → outcome B)
    (pre : list A) (x : A) (post : list A) (e : exn) :
  Forall (λ a, ∃ y, f a = Return y) pre →
  f x = Raise e →
  mapM f (pre ++ x :: post) = Raise e.
Proof.
  intros Hpre Hx. induction Hpre as [|a pre [y Ha] _ IH].
  - cbn [app]. rewrite mapM_outcome_cons. by rewrite Hx.
  - cbn [app]. rewrite mapM_outcome_cons, Ha. cbn. by rewrite IH.
Qed.

Lemma mapM_outcome_cases {A B} (f : A → outcome B) (e1 e2 : exn)
    (P : B → Prop) (l : list A) :
  (∀ x, f x = Raise e1 ∨ f x = Raise e2 ∨ ∃ y, f x = Return y ∧ P y) →
  mapM f l = Raise e1 ∨ mapM f l = Raise e2
  ∨ ∃ k, mapM f l = Return k ∧ Forall P k ∧ length k = length l.
Proof.
  intros Hf. induction l as [|x l IH].
  - right; right. by exists [].
  - rewrite mapM_outcome_cons.
    destruct (Hf x) as [Hx|[Hx|(y & Hx & Hy)]]; rewrite Hx; [by left|by right; left|].
    destruct IH as [Hl|[Hl|(k & Hl & Hk & Hlen)]]; cbn; rewrite Hl;
      [by left|by right; left|].
    right; right. exists (y :: k). cbn. split; [done|]. split; [by constructor|].
    by rewrite Hlen.
Qed.

(** ** The predicate grammar: values *)

(** A separator at the end of a text, outside quotes, leaves an empty
    last piece. *)
Lemma split_unquoted_trailing (sep : ascii → bool) (q : option ascii)
    (s : string) (c0 : ascii) :
  (∀ c, sep c = true → is_quote c = false) →
  open_quote q s = None → sep c0 = true →
  split_unquoted sep q (s +:+ String c0 EmptyString)
  = ((split_unquoted sep q s).1, (split_unquoted sep q s).2 ++ [EmptyString]).
Proof.
  intros Hsep Hs Hc0. revert q Hs. induction s as [|c s IH]; intros q Hs.
  - rewrite string_app_nil_l. cbn in Hs. subst q. cbn. by rewrite Hc0.
  - rewrite string_app_cons. cbn [split_unquoted]. cbn [open_quote] in Hs.
    destruct q as [qc|].
    + rewrite (IH _ Hs). by destruct (split_unquoted sep _ s).
    + destruct (sep c) eqn:Hc.
      * rewrite (Hsep c Hc) in Hs. rewrite (IH _ Hs).
        by destruct (split_unquoted sep None s).
      * rewrite (IH _ Hs). by destruct (split_unquoted sep _ s).
Qed.

Lemma pieces_trailing (sep : ascii → bool) (s : string) (c0 : ascii) :
  (∀ c, sep c = true → is_quote c = false) →
  quotes_closed s → sep c0 = true →
  pieces sep (s +:+ String c0 EmptyString) = pieces sep s ++ [EmptyString].
Proof.
  intros Hsep Hs Hc0. unfold pieces. rewrite split_unquoted_trailing by done.
  by destruct (split_unquoted sep None s).
Qed.

Lemma comma_no_quote (c : ascii) : Ascii.eqb "," c = true → is_quote c = false.
Proof. by intros <-%Ascii.eqb_eq. Qed.

Lemma pieces_nonempty (sep : ascii → bool) (s : string) : pieces sep s ≠ [].
Proof. unfold pieces. by destruct (split_unquoted sep None s). Qed.

Lemma rtrim_cons (c : ascii) (s : string) :
  rtrim (String c s)
  = match rtrim s with
    | EmptyString => if is_space c then EmptyString else String c EmptyString
    | String c' r => String c (String c' r)
    end.
Proof. reflexivity. Qed.

Lemma rtrim_idemp (s : string) : rtrim (rtrim s) = rtrim s.
Proof.
  induction s as [|c s IH]; [done|]. rewrite rtrim_cons.
  destruct (rtrim s) as [|c' r] eqn:Hr.
  - destruct (is_space c) eqn:Hc; [done|]. cbn. by rewrite Hc.
  - by rewrite rtrim_cons, IH.
Qed.

Lemma rtrim_head (c : ascii) (s : string) :
  is_space c = false → ∃ r, rtrim (String c s) = String c r.
Proof.
  intros Hc. rewrite rtrim_cons. destruct (rtrim s) as [|c' r]; [|by eexists].
  rewrite Hc. by eexists.
Qed.

Lemma ltrim_head (s : string) : head_ok is_space (ltrim s).
Proof.
  induction s as [|c s IH]; [done|]. cbn [ltrim].
  by destruct (is_space c) eqn:Hc.
Qed.

(** Trimming a trimmed string changes nothing. *)
Lemma trim_idemp (s : string) : trim (trim s) = trim s.
Proof.
  unfold trim. pose proof (ltrim_head s) as Hhead.
  destruct (ltrim s) as [|c t]; [done|]. cbn in Hhead.
  destruct (rtrim_head c t Hhead) as [r Hr]. rewrite Hr.
  rewrite ltrim_nonspace by done. rewrite <- Hr. apply rtrim_idemp.
Qed.

(** A value fails as a syntax error or is the trimmed piece, not empty. *)
Lemma parse_value_outcome (piece : string) :
  parse_value piece = Raise PredicateSyntaxError
  ∨ ∃ v, parse_value piece = Return v ∧ v ≠ EmptyString ∧ trim v = v.
Proof.
  unfold parse_value. pose proof (trim_idemp piece) as Htrim.
  destruct (trim piece) as [|c r] eqn:Hv; [by left|].
  destruct (is_quote c).
  - destruct (closes c r); [right|by left]. by eexists.
  - destruct (string_forall _ _); [right|by left]. by eexists.
Qed.

Lemma parse_value_raises (piece : string) :
  parse_value piece = Raise PredicateSyntaxError ∨ ∃ v, parse_value piece = Return v.
Proof.
  destruct (parse_value_outcome piece) as [H|(v & H & _)]; [by left|right; eauto].
Qed.

(** A value list that ends with a comma is a syntax error. *)
Lemma mapM_parse_value_trailing (vl : string) :
  quotes_closed vl →
  mapM parse_value (pieces (Ascii.eqb ",") (vl +:+ ","))
  = Raise PredicateSyntaxError.
Proof.
  intros Hvl. rewrite pieces_trailing by auto using comma_no_quote.
  apply mapM_outcome_raise; [apply parse_value_raises|].
  apply Exists_app. right. by constructor.
Qed.

(** ** The predicate grammar: terms *)

(** A term whose text is an identifier, whitespace or none, and a token
    of symbols: the token decides, and what follows it is the value
    list. *)
Lemma parse_term_operator (term : list string) (f pad tok tail : string) :
  str_join " " term = f +:+ pad +:+ tok +:+ tail →
  is_identifier f = true →
  string_forall is_space pad = true →
  tok ≠ EmptyString →
  string_forall is_symbol tok = true →
  head_ok is_symbol tail →
  parse_term term
  = match operator_of operator_table tok with
    | None => Raise UnsupportedOperatorError
    | Some op =>
        vs ← mapM parse_value (pieces (Ascii.eqb ",") tail);
        Return (mkPredicate f op vs)
    end.
Proof.
  intros Htext Hf Hpad Hne Htok Htail. unfold parse_term. rewrite Htext.
  destruct tok as [|c tok]; [done|]. clear Hne.
  pose proof Htok as Hc. cbn in Hc. apply andb_true_iff in Hc as [Hc _].
  rewrite take_while_app.
  - rewrite Hf. cbn [negb].
    rewrite string_app_cons, (ltrim_pad pad c) by auto using symbol_not_space.
    rewrite <- string_app_cons, (take_while_app is_symbol) by done.
    reflexivity.
  - by apply identifier_plain.
  - destruct pad as [|a pad].
    + rewrite string_app_nil_l, string_app_cons. cbn.
      by rewrite Hc, orb_true_r.
    + rewrite string_app_cons. cbn in *.
      apply andb_true_iff in Hpad as [-> _]. done.
Qed.

(** A term that ends with its operator has no value. *)
Lemma parse_term_missing_value (term : list string) :
  missing_value term → parse_term term = Raise PredicateSyntaxError.
Proof.
  intros (f & pad & sp & op & Htext & Hf & Hpad & Hsp).
  destruct (spelling_token sp op Hsp) as (Hne & Hsym & Hop).
  rewrite (parse_term_operator term f pad sp EmptyString); [|by rewrite string_app_nil_r|done..].
  by rewrite Hop.
Qed.

(** A value list that ends with a comma misses its last value. *)
Lemma parse_term_trailing_comma (term : list string) :
  trailing_comma term → parse_term term = Raise PredicateSyntaxError.
Proof.
  intros (f & pad & sp & op & vl & Htext & Hf & Hpad & Hsp & Hvl & Hhead).
  destruct (spelling_token sp op Hsp) as (Hne & Hsym & Hop).
  rewrite (parse_term_operator term f pad sp (vl +:+ ",")) by done.
  rewrite Hop. by rewrite mapM_parse_value_trailing.
Qed.

(** A token of symbols outside the closed enumeration is an unsupported
    operator. *)
Lemma parse_term_unsupported (term : list string) :
  unsupported_operator term → parse_term term = Raise UnsupportedOperatorError.
Proof.
  intros (f & pad & tok & tail & Htext & Hf & Hpad & Hne & Hsym & Hhead & Hop).
  rewrite (parse_term_operator term f pad tok tail) by done.
  by rewrite Hop.
Qed.

(** A term fails with one of the two error kinds or is well formed. *)
Lemma parse_term_outcome (term : list string) :
  parse_term term = Raise PredicateSyntaxError
  ∨ parse_term term = Raise UnsupportedOperatorError
  ∨ ∃ t, parse_term term = Return t ∧ well_formed_term t.
Proof.
  unfold parse_term.
  destruct (take_while _ (str_join " " term)) as [f rest].
  destruct (is_identifier f) eqn:Hf; cbn [negb]; [|by left].
  destruct (take_while is_symbol (ltrim rest)) as [tok vl].
  destruct tok as [|c tok]; [by left|].
  destruct (operator_of operator_table (String c tok)) as [op|]; [|by right; left].
  destruct (mapM_outcome_cases parse_value PredicateSyntaxError
              PredicateSyntaxError well_formed_value
              (pieces (Ascii.eqb ",") vl))
    as [Hm|[Hm|(vs & Hm & Hvs & Hlen)]].
  - intros p. destruct (parse_value_outcome p) as [Hp|(v & Hp & Hv)]; eauto.
  - left. by rewrite Hm.
  - left. by rewrite Hm.
  - right; right. rewrite Hm. eexists. split; [reflexivity|].
    split; [done|]. split; [|done]. cbn.
    intros ->. cbn in Hlen. symmetry in Hlen.
    by apply length_zero_iff_nil, pieces_nonempty in Hlen.
Qed.

(** ** The predicate grammar: results of [parse] *)

Lemma parse_blank (raw : string) :
  string_forall is_space raw = true → parse raw = Raise PredicateSyntaxError.
Proof. intros Hblank. unfold parse. by rewrite Hblank. Qed.

(** A blank input has one group, the empty one, which is no term. *)
Lemma groups_blank (raw : string) :
  string_forall is_space raw = true →
  groups is_conjunction (chunks raw) = [[]].
Proof. intros Hblank. by rewrite chunks_blank. Qed.

(** The first term that fails decides the error, wherever it stands. *)
Lemma parse_first_failure (raw : string) (pre : list (list string))
    (term : list string) (post : list (list string)) (err : exn) :
  groups is_conjunction (chunks raw) = pre ++ term :: post →
  Forall (λ t, ∃ p, parse_term t = Return p) pre →
  parse_term term = Raise err →
  parse raw = Raise err.
Proof.
  intros Hgroups Hpre Hterm. unfold parse.
  destruct (string_forall is_space raw) eqn:Hblank.
  - rewrite groups_blank in Hgroups by done.
    destruct pre as [|t pre].
    + cbn in Hgroups. injection Hgroups as <- _.
      cbn in Hterm. congruence.
    + cbn in Hgroups. injection Hgroups as <- Hnil.
      apply Forall_cons in Hpre as [[p Hp] _]. by cbn in Hp.
  - rewrite Hgroups. by apply mapM_outcome_first_failure.
Qed.

(** An expression is returned exactly when every term parses, and it has
    the result of every term, in order. *)
Lemma parse_return_iff (raw : string) (e : list Predicate) :
  parse raw = Return e
  ↔ Forall2 (λ term t, parse_term term = Return t)
      (groups is_conjunction (chunks raw)) e.
Proof.
  unfold parse. destruct (string_forall is_space raw) eqn:Hblank.
  - rewrite groups_blank by done. split; [done|].
    intros Hall. apply Forall2_cons_inv_l in Hall as (t & e' & Ht & _ & _).
    by cbn in Ht.
  - apply mapM_outcome_return.
Qed.

(** [parse] raises one of the two error kinds, or returns an expression
    of at least one term whose terms are all well formed. *)
Lemma parse_outcome (raw : string) :
  parse raw = Raise PredicateSyntaxError
  ∨ parse raw = Raise UnsupportedOperatorError
  ∨ ∃ e, parse raw = Return e ∧ e ≠ [] ∧ Forall well_formed_term e.
Proof.
  unfold parse. destruct (string_forall is_space raw); [by left|].
  destruct (mapM_outcome_cases parse_term PredicateSyntaxError
              UnsupportedOperatorError well_formed_term
              (groups is_conjunction (chunks raw)) parse_term_outcome)
    as [Hm|[Hm|(e & Hm & He & Hlen)]]; [by left|by right; left|].
  right; right. exists e. split; [done|]. split; [|done].
  intros ->. cbn in Hlen. symmetry in Hlen.
  by apply length_zero_iff_nil, groups_nonempty in Hlen.
Qed.

(** A term that fails, wherever it stands, leaves no expression. *)
Lemma parse_failing_term (raw : string) (term : list string) (err : exn) :
  term ∈ groups is_conjunction (chunks raw) →
  parse_term term = Raise err →
  parse raw = Raise PredicateSyntaxError
  ∨ parse raw = Raise UnsupportedOperatorError.
Proof.
  intros Hin Hterm.
  destruct (parse_outcome raw) as [H|[H|(e & He & _)]]; [by left|by right|].
  apply parse_return_iff in He.
  apply list_elem_of_lookup in Hin as [i Hi].
  destruct (Forall2_lookup_l _ _ _ _ _ He Hi) as (t & _ & Ht). congruence.
Qed.



(** * Further properties of the client *)

(** ** The conversion helpers *)

Lemma split_first_count (sep : ascii) (s : string) :
  length (split_first sep s).2 = count_char sep s.
Proof.
  induction s as [|c s IH]; [done|].
  cbn [split_first count_char]. destruct (split_first sep s) as [w ws].
  cbn [snd] in IH. destruct (Ascii.eqb c sep); cbn; by rewrite IH.
Qed.

Lemma split_first_free (sep : ascii) (s : string) :
  Forall (λ w, string_forall (λ c, negb (Ascii.eqb c sep)) w = true)
    ((split_first sep s).1 :: (split_first sep s).2).
Proof.
  induction s as [|c s IH]; [by repeat constructor|].
  cbn [split_first]. destruct (split_first sep s) as [w ws].
  cbn [fst snd] in *. destruct (Ascii.eqb c sep) eqn:Hc.
  - by constructor.
  - apply Forall_cons in IH as [Hw Hws]. constructor; [|done].
    cbn. by rewrite Hc, Hw.
Qed.

(** X1.  [_str_to_list] on a string returns the pieces between its
    commas: joined again with commas the pieces give the string, no piece
    holds a comma, and there is one piece more than the string has commas
    (so never an empty list, the empty string giving one empty piece).
    The pieces are the only list with the first two properties: any
    non-empty list of comma-free strings whose join is the string is the
    list returned. *)
Theorem str_to_list_pieces (field_name s : string) :
  ∃ l,
    _str_to_list field_name (PStr s) = Return (PList (SStr <$> l))
    ∧ str_join "," l = s
    ∧ Forall comma_free l
    ∧ length l = S (count_char comma s)
    ∧ (∀ l', l' ≠ [] → Forall comma_free l' → str_join "," l' = s → l' = l).
Proof.
  exists (str_split comma s). split; [reflexivity|].
  split; [apply (str_join_split comma s)|].
  assert (Forall comma_free (str_split comma s)
          ∧ length (str_split comma s) = S (count_char comma s)) as [Hfree Hlen].
  { unfold str_split. pose proof (split_first_count comma s) as Hlen.
    pose proof (split_first_free comma s) as Hfree.
    destruct (split_first comma s) as [w ws]. cbn [fst snd] in *.
    split; [exact Hfree|by rewrite <- Hlen]. }
  split; [exact Hfree|]. split; [exact Hlen|].
  intros l' Hne Hfree' <-. symmetry. by apply str_split_join.
Qed.

(** The field list of the client's example. *)
Lemma str_to_list_pieces_witness :
  ∃ l,
    _str_to_list "fields" (PStr "ts,,price") = Return (PList (SStr <$> l))
    ∧ l = ["ts"; ""; "price"].
Proof.
  destruct (str_to_list_pieces "fields" "ts,,price")
    as (l & Hl & _ & _ & _ & Honly).
  exists l. split; [exact Hl|]. symmetry.
  apply (Honly ["ts"; ""; "price"]).
  - discriminate.
  - repeat constructor.
  - reflexivity.
Defined.

(** X2.  Joining a list with [_list_to_str] and splitting the result with
    [_str_to_list] gives the elements' string forms back, in their order,
    when none of them holds a comma; the empty list does not come back: its
    join is the empty string, which splits into one empty piece.  Elements
    that are no strings come back as strings. *)
Theorem list_to_str_then_str_to_list (f g : string) (xs : list scalar) :
  Forall (λ x, comma_free (py_str x)) xs →
  (s ← _list_to_str g (PList xs); _str_to_list f s)
  = Return (PList (SStr <$> match xs with
                            | [] => [EmptyString]
                            | _ :: _ => py_str <$> xs
                            end)).
Proof.
  intros Hfree.
  change (Return (PList (SStr <$> str_split comma (str_join "," (py_str <$> xs))))
          = Return (PList (SStr <$> match xs with
                                    | [] => [EmptyString]
                                    | _ :: _ => py_str <$> xs
                                    end))).
  destruct xs as [|x xs]; [reflexivity|].
  rewrite str_split_join; [done|done|].
  by apply Forall_fmap.
Qed.

(** Two tickers and a number: the number comes back as a string. *)
Lemma list_to_str_then_str_to_list_witness :
  (s ← _list_to_str "tickers" (PList [SStr "TD"; SInt 5; SStr "RY"]);
   _str_to_list "tickers" s)
  = Return (PList [SStr "TD"; SStr "5"; SStr "RY"]).
Proof.
  apply (list_to_str_then_str_to_list "tickers" "tickers"
           [SStr "TD"; SInt 5; SStr "RY"]).
  repeat constructor.
Defined.

(** X3.  Each helper is idempotent: what it returns is of its target
    type, and the helper applied to it returns it unchanged. *)
Theorem conversion_helpers_idempotent :
  (∀ f g v l, _str_to_list f v = Return l → _str_to_list g l = Return l)
  ∧ (∀ f g v s, _list_to_str f v = Return s → _list_to_str g s = Return s).
Proof.
  split.
  - intros f g [[| |s]|xs|d] l; cbn; intros [= <-]; reflexivity.
  - intros f g [[| |s]|xs|d] r; cbn; intros [= <-]; reflexivity.
Qed.

(** A field list given as a string, and a ticker list given as a list. *)
Lemma conversion_helpers_idempotent_witness :
  _str_to_list "fields" (PList [SStr "ts"; SStr "ticker"])
  = Return (PList [SStr "ts"; SStr "ticker"])
  ∧ _list_to_str "tickers" (PStr "TD,RY") = Return (PStr "TD,RY").
Proof.
  destruct conversion_helpers_idempotent as [Hlist Hstr]. split.
  - apply (Hlist "fields" "fields" (PStr "ts,ticker")). reflexivity.
  - apply (Hstr "tickers" "tickers" (PList [SStr "TD"; SStr "RY"])). reflexivity.
Defined.

(** ** More on the parameters of [run_query] *)

(** X4.  A [params] that is false (the default empty string, [None], [0],
    an empty list, an empty dict) is replaced by a new empty dict when
    there are predicates: the result is the predicates' dict alone. *)
Theorem run_query_params_false_params (params : pyval) (preds : list Predicate) :
  truthy params = false → preds ≠ [] →
  run_query_params params preds
  = Return (PDict (py_dict (get_as_tuple <$> preds))).
Proof.
  intros Hfalse Hne. unfold run_query_params.
  rewrite bool_decide_true by done. rewrite Hfalse. cbn.
  by rewrite (right_id_L ∅ (∪)).
Qed.

(** [None] passed for [params]. *)
Lemma run_query_params_false_params_witness :
  run_query_params PNone example_expression
  = Return (PDict (py_dict (get_as_tuple <$> example_expression))).
Proof.
  apply (run_query_params_false_params PNone example_expression).
  - reflexivity.
  - discriminate.
Defined.

(** X5.  Serializing is idempotent: the parameters that a first pass
    returns are returned unchanged by a second pass with the same
    predicates. *)
Theorem run_query_params_idempotent (params r : pyval) (preds : list Predicate) :
  run_query_params params preds = Return r →
  run_query_params r preds = Return r.
Proof.
  unfold run_query_params. case_bool_decide as Hne; [|done].
  set (q := py_dict (get_as_tuple <$> preds)).
  assert (∀ d, dict_unpack2 (if negb (truthy (PDict (q ∪ d))) then PDict ∅
                               else PDict (q ∪ d)) (PDict q)
               = Return (PDict (q ∪ d))) as Hagain.
  { intros d. cbn [truthy]. case_bool_decide as Hempty; cbn [negb dict_unpack2].
    - rewrite Hempty. by rewrite (map_positive_l q d Hempty), (left_id_L ∅ (∪)).
    - by rewrite (assoc_L (∪)), (idemp_L (∪)). }
  destruct (truthy params); cbn [negb].
  - destruct params as [a|xs|d]; cbn [dict_unpack2]; [by destruct a|done|].
    intros [= <-]. apply Hagain.
  - cbn [dict_unpack2]. intros [= <-]. apply Hagain.
Qed.

(** The example expression over the caller's [limit]. *)
Lemma run_query_params_idempotent_witness :
  run_query_params
    (PDict (py_dict (get_as_tuple <$> example_expression)
            ∪ {[ "limit" := PStr "10" ]}))
    example_expression
  = Return (PDict (py_dict (get_as_tuple <$> example_expression)
                   ∪ {[ "limit" := PStr "10" ]})).
Proof.
  apply (run_query_params_idempotent (PDict {[ "limit" := PStr "10" ]})).
  apply run_query_params_dict.
Defined.

Lemma foldl_dict_put_permutation (d : gmap string pyval) (l l' : list (string * pyval)) :
  l ≡ₚ l' → NoDup l.*1 → foldl dict_put d l = foldl dict_put d l'.
Proof.
  intros Hperm. revert d.
  induction Hperm as [|x l l' Hperm IH|x y l|l l' l'' Hperm IH Hperm' IH'];
    intros d Hnodup.
  - done.
  - cbn. apply IH. by apply NoDup_cons in Hnodup as [_ ?].
  - cbn. f_equal. unfold dict_put. cbn in Hnodup.
    apply NoDup_cons in Hnodup as [Hy _].
    apply insert_insert_ne. intros Heq. apply Hy. rewrite Heq. left.
  - rewrite IH by done. apply IH'. by rewrite <- Hperm.
Qed.

(** X6.  When no two terms' tuples share a key, the order of the terms
    does not matter: an expression and any rearrangement of it serialize
    to the same parameters. *)
Theorem run_query_params_permutation (params : pyval) (preds preds' : list Predicate) :
  preds ≡ₚ preds' →
  NoDup (get_as_tuple <$> preds).*1 →
  run_query_params params preds = run_query_params params preds'.
Proof.
  intros Hperm Hnodup. unfold run_query_params.
  assert (bool_decide (preds ≠ []) = bool_decide (preds' ≠ [])) as ->.
  { apply bool_decide_ext. split; intros Hne ->.
    - by apply Permutation_nil_r in Hperm.
    - by apply Permutation_nil in Hperm. }
  unfold py_dict.
  by rewrite (foldl_dict_put_permutation ∅ _ (get_as_tuple <$> preds'))
    by (by try apply fmap_Permutation).
Qed.

(** The example expression with its two terms exchanged. *)
Lemma run_query_params_permutation_witness :
  run_query_params (PDict {[ "limit" := PStr "10" ]}) example_expression
  = run_query_params (PDict {[ "limit" := PStr "10" ]})
      [mkPredicate "askprice" GTE ["3"]; mkPredicate "line_type" EQ ["QA"; "QB"]].
Proof.
  apply run_query_params_permutation.
  - apply perm_swap.
  - apply (bool_decide_unpack _). vm_compute. exact I.
Defined.

Section RunQueryRequest.
Context {Auth : Type}.
Variable format : string → gmap string pyval → outcome string.
Variable query : string → Auth → pyval → outcome string.

(** X7.  [run_query] makes no request when the parameters cannot be
    built: with predicates and a true [params] that is no dict (a query
    string, say), it raises [TypeError] once the endpoint is formatted,
    whatever [query] would have done. *)
Theorem run_query_type_error_before_request
    (pattern endpoint : string) (replace_dict : gmap string pyval)
    (auth : Auth) (params : pyval) (preds : list Predicate) :
  format pattern replace_dict = Return endpoint →
  preds ≠ [] → truthy params = true → (∀ d, params ≠ PDict d) →
  run_query format query pattern replace_dict auth params preds = Raise TypeError.
Proof.
  intros Hformat Hne Htrue Hdict. unfold run_query, run_query_params.
  rewrite Hformat, bool_decide_true by done. rewrite Htrue. cbn.
  destruct params as [a|xs|d]; [done..|]. by destruct (Hdict d).
Qed.

End RunQueryRequest.

(** A query string for [params], and a [query] that would exit. *)
Lemma run_query_type_error_before_request_witness :
  run_query (Auth := unit) (λ pattern _, Return pattern)
    (λ _ _ _, SysExit "Request returned no results")
    "https://host/api" ∅ tt (PStr "limit=10") example_expression
  = Raise TypeError.
Proof.
  apply (run_query_type_error_before_request (Auth := unit) _ _
           "https://host/api" "https://host/api" ∅ tt (PStr "limit=10")
           example_expression).
  - reflexivity.
  - discriminate.
  - reflexivity.
  - discriminate.
Defined.

(** ** More on [run_query] over the store *)

(** X8.  With predicates, the dict that [run_query] hands on is a new
    object: its location held no object before the call, so it is not the
    caller's dict, which is still in the store with its items; the new
    dict holds the merged parameters. *)
Theorem run_query_store_new_object (σ : store) (params predicates : loc)
    (d : gmap string pyval) (ps : list Predicate) :
  σ !! params = Some (OVal (PDict d)) →
  σ !! predicates = Some (OPredicates ps) →
  ps ≠ [] →
  ∃ l σ',
    run_query_store params predicates σ = Some (Return l, σ')
    ∧ σ !! l = None
    ∧ l ≠ params
    ∧ σ' !! l = Some (OVal (PDict (py_dict (get_as_tuple <$> ps) ∪ d)))
    ∧ σ' !! params = Some (OVal (PDict d)).
Proof.
  intros Hp Hps Hne. unfold run_query_store.
  rewrite (run_bind_return _ _ (OPredicates ps) σ σ) by by apply load_at.
  cbn [object_truthy iterate]. rewrite bool_decide_true by done.
  rewrite (run_bind_return _ _ ps σ σ) by done.
  rewrite (run_bind_return _ _ (OVal (PDict d)) σ σ) by by apply load_at.
  cbn [object_truthy truthy].
  set (q := py_dict (get_as_tuple <$> ps)).
  assert (∀ (σ2 : store) (l : loc),
            σ ⊆ σ2 → σ2 !! l = None → σ !! l = None ∧ l ≠ params) as Hfresh.
  { intros σ2 l Hsub Hl.
    assert (σ !! l = None) as Hnone by by eapply lookup_weaken_None.
    split; [done|]. intros ->. by rewrite Hp in Hnone. }
  case_bool_decide as Hd; cbn [negb].
  - set (l1 := fresh (dom σ)). set (σ1 := <[l1 := OVal (PDict ∅)]> σ).
    set (l2 := fresh (dom σ1)). set (σ2 := <[l2 := OVal (PDict q)]> σ1).
    assert (σ ⊆ σ1) as Hsub1 by apply alloc_extends.
    assert (σ1 ⊆ σ2) as Hsub2 by apply alloc_extends.
    assert (σ1 !! l1 = Some (OVal (PDict ∅))) as Hl1 by apply lookup_insert_eq.
    assert (σ2 !! l1 = Some (OVal (PDict ∅))) as Hl1' by by eapply lookup_weaken.
    assert (σ2 !! l2 = Some (OVal (PDict q))) as Hq2 by apply lookup_insert_eq.
    rewrite (run_bind_return _ _ l1 σ σ1) by done.
    rewrite (run_bind_return _ _ l2 σ1 σ2) by done.
    rewrite (run_bind_return _ _ (OVal (PDict ∅)) σ2 σ2) by by apply load_at.
    rewrite (run_bind_return _ _ (OVal (PDict q)) σ2 σ2) by by apply load_at.
    cbn [object_unpack2 dict_unpack2].
    rewrite (run_bind_return _ _ (OVal (PDict (q ∪ ∅))) σ2 σ2) by done.
    assert (σ ⊆ σ2) as Hsub by by etrans.
    destruct (Hfresh σ2 (fresh (dom σ2)) Hsub (fresh_lookup_None σ2)) as [Hnone Hneq].
    eexists _, _. split; [reflexivity|]. split; [done|]. split; [done|]. split.
    + rewrite lookup_insert_eq. by rewrite Hd.
    + rewrite lookup_insert_ne by done. by eapply lookup_weaken.
  - set (l2 := fresh (dom σ)). set (σ2 := <[l2 := OVal (PDict q)]> σ).
    assert (σ ⊆ σ2) as Hsub by apply alloc_extends.
    assert (σ2 !! params = Some (OVal (PDict d))) as Hp2 by by eapply lookup_weaken.
    assert (σ2 !! l2 = Some (OVal (PDict q))) as Hq2 by apply lookup_insert_eq.
    rewrite (run_bind_return _ _ params σ σ) by done.
    rewrite (run_bind_return _ _ l2 σ σ2) by done.
    rewrite (run_bind_return _ _ (OVal (PDict d)) σ2 σ2) by by apply load_at.
    rewrite (run_bind_return _ _ (OVal (PDict q)) σ2 σ2) by by apply load_at.
    cbn [object_unpack2 dict_unpack2].
    rewrite (run_bind_return _ _ (OVal (PDict (q ∪ d))) σ2 σ2) by done.
    destruct (Hfresh σ2 (fresh (dom σ2)) Hsub (fresh_lookup_None σ2)) as [Hnone Hneq].
    eexists _, _. split; [reflexivity|]. split; [done|]. split; [done|]. split.
    + by rewrite lookup_insert_eq.
    + by rewrite lookup_insert_ne.
Qed.

(** The caller's store: the merged dict is a third object. *)
Lemma run_query_store_new_object_witness :
  ∃ l σ',
    run_query_store 1 2 example_store = Some (Return l, σ')
    ∧ example_store !! l = None
    ∧ l ≠ 1%positive
    ∧ σ' !! l
      = Some (OVal (PDict (py_dict (get_as_tuple <$> example_expression)
                           ∪ {[ "limit" := PStr "10" ]})))
    ∧ σ' !! 1%positive = Some (OVal (PDict {[ "limit" := PStr "10" ]})).
Proof.
  apply (run_query_store_new_object example_store 1 2
           {[ "limit" := PStr "10" ]} example_expression).
  - reflexivity.
  - reflexivity.
  - discriminate.
Defined.

(** ** The requests: [query] *)

Lemma rstrip_empty_iff (c : ascii) (s : string) :
  rstrip c s = EmptyString ↔ string_forall (λ a, Ascii.eqb a c) s = true.
Proof.
  induction s as [|a s IH]; [done|]. cbn [rstrip string_forall].
  destruct (rstrip c s) as [|b r].
  - destruct (Ascii.eqb a c); cbn; [|split; intros; discriminate].
    split; intros _; [by apply IH|done].
  - split; [discriminate|]. intros [_ Hs]%andb_true_iff.
    by apply IH in Hs.
Qed.

Lemma rstrip_nul_all_nul (s : string) :
  String.eqb (rstrip nul s) EmptyString = all_nul s.
Proof.
  unfold all_nul. destruct (string_forall _ s) eqn:Hs.
  - apply String.eqb_eq. by apply rstrip_empty_iff.
  - apply String.eqb_neq. intros Hr%rstrip_empty_iff. congruence.
Qed.

(** The [except] clauses end in an exit or in an exception, never in a
    value. *)
Lemma handle_outcome {A} (e : Http.exception) :
  (∃ v, Http.handle (A := A) e = Http.Exit v)
  ∨ (∃ x, Http.handle (A := A) e = Http.Throw x).
Proof.
  destruct e as [cls args]. unfold Http.handle. cbn [Http.exc_class].
  destruct cls; [by left; eexists| |by left; eexists|by right; eexists].
  destruct args as [|[v|[cls' [|a args']]] rest]; cbn; eauto.
Qed.

Lemma checked_ret (a : Http.attempt) (r : Http.Response) :
  Http.checked a = Http.Ret r
  ↔ a = Http.Responded r ∧ Http.status_error r = None.
Proof.
  unfold Http.checked. split.
  - destruct a as [r'|e].
    + destruct (Http.status_error r') as [e|] eqn:Herr.
      * destruct (handle_outcome (A := Http.Response) e) as [[v Hv]|[x Hx]];
          congruence.
      * by intros [= ->].
    + destruct (handle_outcome (A := Http.Response) e) as [[v Hv]|[x Hx]];
        congruence.
  - intros [-> Herr]. by rewrite Herr.
Qed.

Lemma checked_raises (a : Http.attempt) (e : Http.exception) :
  Http.raises a e → Http.checked a = Http.handle e.
Proof.
  intros [->|(r & -> & Herr)]; [done|]. cbn. by rewrite Herr.
Qed.

Lemma checked_cases (a : Http.attempt) :
  (∃ r, a = Http.Responded r ∧ Http.status_error r = None
        ∧ Http.checked a = Http.Ret r)
  ∨ (∃ e, Http.raises a e ∧ Http.checked a = Http.handle e).
Proof.
  destruct a as [r|e].
  - destruct (Http.status_error r) as [e|] eqn:Herr.
    + right. exists e. split; [right; eauto|]. cbn. by rewrite Herr.
    + left. exists r. cbn. by rewrite Herr.
  - right. exists e. split; [by left|done].
Qed.

Section QueryFacts.
Context {Auth : Type}.
Variable get : string → pyval → Auth → Http.attempt.

(** X9.  [query] returns exactly when the request is answered,
    [raise_for_status()] raises nothing, the response is true and its text
    has a character other than [\x00]; what it returns is the response's
    text as it is, the [\x00] characters at its end included. *)
Theorem query_returns_iff (endpoint : string) (auth : Auth) (params : pyval)
    (t : string) :
  Http.query get endpoint auth params = Http.Ret t
  ↔ ∃ r, get endpoint params auth = Http.Responded r
         ∧ Http.status_error r = None
         ∧ Http.ok r = true
         ∧ Http.text r = t
         ∧ all_nul t = false.
Proof.
  unfold Http.query. split.
  - destruct (checked_cases (get endpoint params auth))
      as [(r & Hget & Herr & ->)|(e & _ & ->)].
    + cbn. rewrite rstrip_nul_all_nul.
      destruct (Http.ok r) eqn:Hok; cbn; [|done].
      destruct (all_nul (Http.text r)) eqn:Hnul; [done|].
      intros [= <-]. by exists r.
    + destruct (handle_outcome (A := Http.Response) e) as [[v ->]|[x ->]]; done.
  - intros (r & Hget & Herr & Hok & <- & Hnul).
    rewrite (proj2 (checked_ret _ r)) by done.
    cbn. by rewrite rstrip_nul_all_nul, Hok, Hnul.
Qed.

(** X10.  On an answered request whose status raises nothing, [query]
    exits with "Request returned no results" exactly when the response is
    false or its text is empty or made of [\x00] characters only. *)
Theorem query_no_results (endpoint : string) (auth : Auth) (params : pyval)
    (r : Http.Response) :
  get endpoint params auth = Http.Responded r →
  Http.status_error r = None →
  Http.query get endpoint auth params
  = Http.Exit (Http.Py (PStr "Request returned no results"))
  ↔ Http.ok r = false ∨ all_nul (Http.text r) = true.
Proof.
  intros Hget Herr. unfold Http.query.
  rewrite (proj2 (checked_ret _ r)) by done.
  cbn. rewrite rstrip_nul_all_nul.
  destruct (Http.ok r), (all_nul (Http.text r)); cbn; split; try done; auto.
  by intros [|].
Qed.

(** X11.  An exception of the request or of the status check that is an
    [HTTPError], or an [Exception] that is neither that nor a
    [ConnectionError], never leaves [query]: the process exits with the
    exception itself as the argument of [sys.exit]. *)
Theorem query_exits_with_exception (endpoint : string) (auth : Auth)
    (params : pyval) (e : Http.exception) :
  Http.raises (get endpoint params auth) e →
  Http.exc_class e = Http.HTTPError ∨ Http.exc_class e = Http.OtherException →
  Http.query get endpoint auth params = Http.Exit (Http.Exc e).
Proof.
  intros Hraises Hclass. unfold Http.query.
  rewrite (checked_raises _ e Hraises). unfold Http.handle.
  by destruct Hclass as [-> | ->].
Qed.

(** X12.  For a [ConnectionError] the clause reads [e.args[0].args[0]].
    If the error's first argument is an exception with a first argument
    of its own, the process exits with that; if the error has no
    argument, or the wrapped exception has none, the clause itself raises
    [IndexError], and if the first argument is no exception (a message
    string, say), it raises [AttributeError]: [query] then raises instead
    of exiting. *)
Theorem query_connection_error (endpoint : string) (auth : Auth)
    (params : pyval) (e : Http.exception) :
  Http.raises (get endpoint params auth) e →
  Http.exc_class e = Http.ConnectionError →
  Http.query get endpoint auth params
  = match Http.exc_args e with
    | [] => Http.Throw (Http.Builtin Http.IndexError)
    | Http.Py _ :: _ => Http.Throw (Http.Builtin Http.AttributeError)
    | Http.Exc inner :: _ =>
        match Http.exc_args inner with
        | [] => Http.Throw (Http.Builtin Http.IndexError)
        | v :: _ => Http.Exit v
        end
    end.
Proof.
  intros Hraises Hclass. unfold Http.query.
  rewrite (checked_raises _ e Hraises). unfold Http.handle. rewrite Hclass.
  destruct e as [cls args]. cbn [Http.exc_args].
  by destruct args as [|[v|[cls' [|a args']]] rest].
Qed.

(** X13.  What [query] raises: an exception of the request that is no
    [Exception], passed on as it is, or, after a [ConnectionError] of the
    request, the [IndexError] or [AttributeError] of its own clause.  No
    other exception leaves [query]. *)
Theorem query_raises_only (endpoint : string) (auth : Auth) (params : pyval)
    (x : Http.raised) :
  Http.query get endpoint auth params = Http.Throw x →
  ∃ e, Http.raises (get endpoint params auth) e
       ∧ (Http.exc_class e = Http.NotException ∧ x = Http.Propagated e
          ∨ Http.exc_class e = Http.ConnectionError
            ∧ (x = Http.Builtin Http.IndexError
               ∨ x = Http.Builtin Http.AttributeError)).
Proof.
  unfold Http.query.
  destruct (checked_cases (get endpoint params auth))
    as [(r & Hget & Herr & ->)|(e & Hraises & ->)].
  - cbn. by destruct (_ || _).
  - intros Hthrow. exists e. split; [done|]. revert Hthrow.
    destruct e as [cls args]. unfold Http.handle. cbn [Http.exc_class Http.exc_args].
    destruct cls; cbn; [done| |done|].
    + intros Hthrow. right. split; [done|].
      destruct args as [|[v|[cls' [|a args']]] rest]; cbn in Hthrow;
        inversion Hthrow; auto.
    + intros [= <-]. by left.
Qed.

End QueryFacts.

(** A text that ends with two [\x00] characters is returned with them. *)
Lemma query_returns_iff_witness :
  Http.query (Auth := unit)
    (λ _ _ _, Http.Responded (Http.mkResponse None true (String "a" (String nul (String nul EmptyString)))))
    "https://host/api" tt PNone
  = Http.Ret (String "a" (String nul (String nul EmptyString))).
Proof.
  apply (proj2 (query_returns_iff (Auth := unit) _ "https://host/api" tt PNone _)).
  eexists. split; [reflexivity|]. split; [reflexivity|].
  split; [reflexivity|]. split; reflexivity.
Defined.

(** A text of one [\x00] character counts as no result. *)
Lemma query_no_results_witness :
  Http.query (Auth := unit)
    (λ _ _ _, Http.Responded (Http.mkResponse None true (String nul EmptyString)))
    "https://host/api" tt PNone
  = Http.Exit (Http.Py (PStr "Request returned no results")).
Proof.
  apply (proj2 (query_no_results (Auth := unit) _ "https://host/api" tt PNone
                  (Http.mkResponse None true (String nul EmptyString))
                  eq_refl eq_refl)).
  right. reflexivity.
Defined.

(** A status check that raises an [HTTPError]. *)
Lemma query_exits_with_exception_witness :
  Http.query (Auth := unit)
    (λ _ _ _, Http.Responded
                (Http.mkResponse
                   (Some (Http.mkException Http.HTTPError [Http.Py (PStr "404")]))
                   false EmptyString))
    "https://host/api" tt PNone
  = Http.Exit (Http.Exc (Http.mkException Http.HTTPError [Http.Py (PStr "404")])).
Proof.
  apply (query_exits_with_exception (Auth := unit)).
  - right. eexists. split; reflexivity.
  - left. reflexivity.
Defined.

(** A connection error that carries a message instead of an exception. *)
Lemma query_connection_error_witness :
  Http.query (Auth := unit)
    (λ _ _ _, Http.Failed
                (Http.mkException Http.ConnectionError [Http.Py (PStr "refused")]))
    "https://host/api" tt PNone
  = Http.Throw (Http.Builtin Http.AttributeError).
Proof.
  apply (query_connection_error (Auth := unit) _ "https://host/api" tt PNone
           (Http.mkException Http.ConnectionError [Http.Py (PStr "refused")])).
  - left. reflexivity.
  - reflexivity.
Defined.

(** A connection error without arguments. *)
Lemma query_raises_only_witness :
  ∃ e, Http.raises (Http.Failed (Http.mkException Http.ConnectionError [])) e
       ∧ (Http.exc_class e = Http.NotException
          ∧ Http.Builtin Http.IndexError = Http.Propagated e
          ∨ Http.exc_class e = Http.ConnectionError
            ∧ (Http.Builtin Http.IndexError = Http.Builtin Http.IndexError
               ∨ Http.Builtin Http.IndexError = Http.Builtin Http.AttributeError)).
Proof.
  apply (query_raises_only (Auth := unit)
           (λ _ _ _, Http.Failed (Http.mkException Http.ConnectionError []))
           "https://host/api" tt PNone (Http.Builtin Http.IndexError)).
  reflexivity.
Defined.

(** ** The requests: [get_token] *)

Section TokenFacts.
Variable post :
  string → gmap string string → gmap string string → scalar * scalar
  → Http.attempt.
Variable loads : string → Http.exception + pyval.

Lemma exit_on_empty_input_name (field : scalar) (name : string) :
  name ≠ EmptyString →
  Http._exit_on_empty_input field (PStr name) = Http.Ret tt.
Proof.
  intros Hname. unfold Http._exit_on_empty_input. cbn [truthy].
  by rewrite (proj2 (String.eqb_neq name EmptyString) Hname).
Qed.

(** After its three checks, which pass whatever the arguments are,
    [get_token] is its request. *)
Lemma get_token_request (url user_name secret_key : scalar) :
  Http.get_token post loads url user_name secret_key
  = (response ←
       Http.checked (post (py_str url +:+ "/sso/token") Http.token_headers
                       Http.token_data (user_name, secret_key));
     jObj ← Http.decoded (loads (Http.text response));
     Http.subscript jObj "access_token").
Proof.
  unfold Http.get_token. by rewrite !exit_on_empty_input_name.
Qed.

(** X14.  When the token request is answered, its status raises nothing
    and the text decodes to a dict, [get_token] returns the dict's
    [access_token], and raises [KeyError] if the dict has none.  This
    holds for every [url], [user_name] and [secret_key], empty ones
    included: the request goes to [url + "/sso/token"] with the two others
    as credentials, and, unlike [query], nothing looks at the truth of
    the response. *)
Theorem get_token_returns_access_token (url user_name secret_key : scalar)
    (r : Http.Response) (d : gmap string pyval) :
  post (py_str url +:+ "/sso/token") Http.token_headers Http.token_data
    (user_name, secret_key) = Http.Responded r →
  Http.status_error r = None →
  loads (Http.text r) = inr (PDict d) →
  Http.get_token post loads url user_name secret_key
  = match d !! "access_token" with
    | Some token => Http.Ret token
    | None => Http.Throw (Http.Builtin Http.KeyError)
    end.
Proof.
  intros Hpost Herr Hloads. rewrite get_token_request.
  rewrite (proj2 (checked_ret _ r)) by done.
  cbn. rewrite Hloads. reflexivity.
Qed.

(** X15.  [get_token] exits only when its request or the status check
    raised an [Exception]: never because an argument is empty. *)
Theorem get_token_exits_only_on_request_error (url user_name secret_key : scalar)
    (v : Http.obj) :
  Http.get_token post loads url user_name secret_key = Http.Exit v →
  ∃ e, Http.raises (post (py_str url +:+ "/sso/token") Http.token_headers
                      Http.token_data (user_name, secret_key)) e
       ∧ Http.exc_class e ≠ Http.NotException.
Proof.
  rewrite get_token_request.
  destruct (checked_cases (post (py_str url +:+ "/sso/token") Http.token_headers
                             Http.token_data (user_name, secret_key)))
    as [(r & Hpost & Herr & ->)|(e & Hraises & ->)].
  - cbn. destruct (loads (Http.text r)) as [e|jObj]; cbn; [done|].
    destruct jObj as [a|xs|d]; cbn; [done..|]. by destruct (d !! "access_token").
  - intros Hexit. exists e. split; [done|]. intros Hclass. revert Hexit.
    unfold Http.handle. by rewrite Hclass.
Qed.

End TokenFacts.

(** Empty arguments: the request is made all the same, to ["/sso/token"]
    with empty credentials. *)
Lemma get_token_returns_access_token_witness :
  Http.get_token
    (λ endpoint _ _ auth,
       if String.eqb endpoint "/sso/token"
       then Http.Responded (Http.mkResponse None false "{}")
       else Http.Failed (Http.mkException Http.OtherException []))
    (λ _, inr (PDict {[ "access_token" := PStr "t0" ]}))
    (SStr "") (SStr "") (SStr "")
  = Http.Ret (PStr "t0").
Proof.
  refine (eq_trans
            (get_token_returns_access_token _ _ (SStr "") (SStr "") (SStr "")
               (Http.mkResponse None false "{}")
               {[ "access_token" := PStr "t0" ]} _ _ _) _).
  - reflexivity.
  - reflexivity.
  - reflexivity.
  - reflexivity.
Defined.

(** A refused request. *)
Lemma get_token_exits_only_on_request_error_witness :
  ∃ e, Http.raises
         (Http.Failed (Http.mkException Http.HTTPError [Http.Py (PStr "401")])) e
       ∧ Http.exc_class e ≠ Http.NotException.
Proof.
  apply (get_token_exits_only_on_request_error
           (λ _ _ _ _, Http.Failed (Http.mkException Http.HTTPError [Http.Py (PStr "401")]))
           (λ _, inr PNone) (SStr "") (SStr "user") (SStr "key")
           (Http.Exc (Http.mkException Http.HTTPError [Http.Py (PStr "401")]))).
  reflexivity.
Defined.
